(** * Exceptions, argument validation and check combinators

    A shallow embedding of [packages/functions/src/errors] (the Exception
    model), of the argument validator adapter [parseArgs], and of the check
    combinators described by the specification.

    JavaScript objects and arrays are reference values.  Exceptions and the
    arrays they carry ([stack], [notes]) therefore live in an explicit store,
    and every operation of the module is a store-passing computation.  This
    keeps object identity ([===]), aliasing of arrays between an Exception and
    the ones derived from it, and the absence of in-place updates visible in
    the statements. *)

From stdpp Require Import gmap strings list fin_maps.

Local Open Scope string_scope.

(** ** The store *)

Module Store.

(** A reference to a heap-allocated object or array. *)
Definition ref := positive.

(** [ExceptionConfig] of [errors/types.ts].  Optional properties are
    [option]s; [cause] is a reference to an Exception, [stack] and [notes]
    are references to arrays. *)
Record ExceptionConfig := mkConfig {
  cfg_name : string;
  cfg_namespace : option string;
  cfg_code : option string;
  cfg_message : option string;
  cfg_cause : option ref;
  cfg_stack : option ref;
  cfg_notes : option ref
}.

(** The object [base] built by [exception(config)].  Its own properties are
    [...config] overridden by [stack], [cause: config.cause] and [notes]; its
    three methods are closures over [config] and [base].  The object is thus
    determined by the captured [config] and by the two array references. *)
Record ExceptionObj := mkObj {
  config : ExceptionConfig;
  stack : ref;
  notes : ref
}.

(** Own properties of [base], as the object literal lays them out. *)
Definition name (o : ExceptionObj) : string := cfg_name (config o).
Definition namespace (o : ExceptionObj) : option string := cfg_namespace (config o).
Definition code (o : ExceptionObj) : option string := cfg_code (config o).
Definition message (o : ExceptionObj) : option string := cfg_message (config o).
Definition cause (o : ExceptionObj) : option ref := cfg_cause (config o).

Inductive cell :=
| ExceptionArray (xs : list ref)      (* Exception[] *)
| StringArray (xs : list string)      (* string[] *)
| ExceptionObject (o : ExceptionObj). (* Exception *)

Abbreviation store := (gmap ref cell).

(** Store-passing computations.  [None] stands for a fault: a read through a
    reference that does not hold a value of the expected kind, or (for user
    supplied handlers) an uncaught throw. *)
Definition M (A : Type) : Type := store → option (A * store).

Definition ret {A} (a : A) : M A := λ σ, Some (a, σ).

Definition bind {A B} (m : M A) (k : A → M B) : M B :=
  λ σ, match m σ with
       | Some (a, σ') => k a σ'
       | None => None
       end.

Declare Scope m_scope.
Delimit Scope m_scope with M.
Notation "x <- m ;; k" := (bind m (λ x, k))
  (at level 20, m at level 99, k at level 200, only parsing) : m_scope.

(** [new]: a fresh reference, initialised. *)
Definition alloc (c : cell) : M ref :=
  λ σ, let l := fresh (dom σ) in Some (l, <[l := c]> σ).

Definition readException (l : ref) : M ExceptionObj :=
  λ σ, match σ !! l with
       | Some (ExceptionObject o) => Some (o, σ)
       | _ => None
       end.

Definition readExceptionArray (l : ref) : M (list ref) :=
  λ σ, match σ !! l with
       | Some (ExceptionArray xs) => Some (xs, σ)
       | _ => None
       end.

Definition readStringArray (l : ref) : M (list string) :=
  λ σ, match σ !! l with
       | Some (StringArray xs) => Some (xs, σ)
       | _ => None
       end.

(** [a ?? b] on an optional reference: [b] is evaluated only when [a] is
    [undefined]. *)
Definition nullish (a : option ref) (b : M ref) : M ref :=
  match a with
  | Some r => ret r
  | None => b
  end.

End Store.

(** ** errors/index.ts *)

Module Errors.
Import Store.
Local Open Scope m_scope.

(** [exception(config)], lines 8-39. *)
Definition exception (config : ExceptionConfig) : M ref :=
  stack <- nullish (cfg_stack config) (alloc (ExceptionArray [])) ;;
  notes <- nullish (cfg_notes config) (alloc (StringArray [])) ;;
  alloc (ExceptionObject {| config := config; stack := stack; notes := notes |}).

(** [base.from(cause)], lines 15-21: [{...config, cause, stack: [...base.stack, cause]}]. *)
Definition from (e : ref) (cause : ref) : M ref :=
  base <- readException e ;;
  old <- readExceptionArray (stack base) ;;
  stack' <- alloc (ExceptionArray (old ++ [cause])) ;;
  exception {| cfg_name := cfg_name (config base);
               cfg_namespace := cfg_namespace (config base);
               cfg_code := cfg_code (config base);
               cfg_message := cfg_message (config base);
               cfg_cause := Some cause;
               cfg_stack := Some stack';
               cfg_notes := cfg_notes (config base) |}.

(** Truthiness of an optional string: [undefined] and [""] are falsy. *)
Definition truthy (s : option string) : bool :=
  match s with
  | Some s => negb (String.eqb s "")
  | None => false
  end.

(** [base.is(other)], lines 23-28 ([is] is reserved, hence the underscore). *)
Definition is_ (e : ref) (other : ref) : M bool :=
  base <- readException e ;;
  o <- readException other ;;
  ret (bool_decide (name o = cfg_name (config base))
       && (if truthy (cfg_namespace (config base))
           then bool_decide (namespace o = cfg_namespace (config base))
           else true)).

(** The comparison as the specification words it, kept apart from [is_] to
    be compared with it: the names match and, when the comparand specifies a
    namespace, that also matches. *)
Definition sameKindAsSpecified (receiver comparand : ExceptionObj) : bool :=
  bool_decide (name comparand = name receiver)
  && match namespace comparand with
     | Some ns => bool_decide (namespace receiver = Some ns)
     | None => true
     end.

(** [base.addNote(note)], lines 30-35: [{...config, notes: [...base.notes, note]}]. *)
Definition addNote (e : ref) (note : string) : M ref :=
  base <- readException e ;;
  old <- readStringArray (notes base) ;;
  notes' <- alloc (StringArray (old ++ [note])) ;;
  exception {| cfg_name := cfg_name (config base);
               cfg_namespace := cfg_namespace (config base);
               cfg_code := cfg_code (config base);
               cfg_message := cfg_message (config base);
               cfg_cause := cfg_cause (config base);
               cfg_stack := cfg_stack (config base);
               cfg_notes := Some notes' |}.

(** [ExceptionSpaceConfig] of [errors/types.ts]. *)
Inductive Severity := info | warning | error | critical.

Record ExceptionSpaceConfig := mkSpaceConfig {
  esc_name : string;
  esc_severity : Severity
}.

(** [Omit<ExceptionConfig, "namespace">], the argument of [define]. *)
Record ConfigWithoutNamespace := mkBare {
  bare_name : string;
  bare_code : option string;
  bare_message : option string;
  bare_cause : option ref;
  bare_stack : option ref;
  bare_notes : option ref
}.

(** The object returned by [exceptionSpace]. *)
Record ExceptionSpace := mkSpace {
  define : ConfigWithoutNamespace → M ref;
  severity : Severity;
  space_name : string
}.

(** [exceptionSpace(space)], lines 41-52: [define] builds
    [exception({...config, namespace: space.name})]. *)
Definition exceptionSpace (space : ExceptionSpaceConfig) : ExceptionSpace :=
  {| define := λ config,
       exception {| cfg_name := bare_name config;
                    cfg_namespace := Some (esc_name space);
                    cfg_code := bare_code config;
                    cfg_message := bare_message config;
                    cfg_cause := bare_cause config;
                    cfg_stack := bare_stack config;
                    cfg_notes := bare_notes config |};
     severity := esc_severity space;
     space_name := esc_name space |}.

(** [raise(exception)], lines 54-56. *)
Definition raise (exception : ref) : M ref := ret exception.

(** The tuple type [[Exception, ...Exception[]]]: an array with a first
    element.  Groups are plain values here: nothing in the module derives
    from a group or compares groups by identity. *)
Record NonEmptyArray (A : Type) := mkNonEmpty {
  first : A;
  others : list A
}.
Arguments mkNonEmpty {A} _ _.
Arguments first {A} _.
Arguments others {A} _.

Definition toList {A} (xs : NonEmptyArray A) : list A := first xs :: others xs.

Record ExceptionGroup := mkGroup {
  group_name : string;
  exceptions : NonEmptyArray ref
}.

(** [group(name, exceptions)], lines 58-64. *)
Definition group (name : string) (exceptions : NonEmptyArray ref) : ExceptionGroup :=
  {| group_name := name; exceptions := exceptions |}.

(** *** Reading an Exception back

    Property reads [e.stack], [e.notes], ... through the store. *)

Definition stackOf (e : ref) : M (list ref) :=
  base <- readException e ;; readExceptionArray (stack base).

Definition notesOf (e : ref) : M (list string) :=
  base <- readException e ;; readStringArray (notes base).

Definition namespaceOf (e : ref) : M (option string) :=
  base <- readException e ;; ret (namespace base).

(** Every data property of an Exception at once, arrays by content. *)
Record Fields := mkFields {
  f_name : string;
  f_namespace : option string;
  f_code : option string;
  f_message : option string;
  f_cause : option ref;
  f_stack : list ref;
  f_notes : list string
}.

Definition fieldsOf (e : ref) : M Fields :=
  base <- readException e ;;
  st <- readExceptionArray (stack base) ;;
  ns <- readStringArray (notes base) ;;
  ret {| f_name := name base; f_namespace := namespace base;
         f_code := code base; f_message := message base;
         f_cause := cause base; f_stack := st; f_notes := ns |}.

(** The value of a computation, the store dropped. *)
Definition eval {A} (m : M A) (σ : store) : option A := fst <$> m σ.

(** An Exception as [exception] leaves it in the store: an object whose
    [stack] and [notes] are arrays, each one either the array of its
    configuration or, when the configuration has none, an empty array. *)
Definition wf_exception (σ : store) (e : ref) : bool :=
  match σ !! e with
  | Some (ExceptionObject o) =>
      match σ !! stack o, σ !! notes o with
      | Some (ExceptionArray st), Some (StringArray ns) =>
          match cfg_stack (config o) with
          | Some s => bool_decide (s = stack o)
          | None => bool_decide (st = [])
          end
          && match cfg_notes (config o) with
             | Some n => bool_decide (n = notes o)
             | None => bool_decide (ns = [])
             end
      | _, _ => false
      end
  | _ => false
  end.

(** A configuration whose arrays, when present, are arrays of the store. *)
Definition wf_config (σ : store) (c : ExceptionConfig) : bool :=
  match cfg_stack c with
  | Some s => match σ !! s with Some (ExceptionArray _) => true | _ => false end
  | None => true
  end
  && match cfg_notes c with
     | Some n => match σ !! n with Some (StringArray _) => true | _ => false end
     | None => true
     end.

(** [config.stack ?? []] (resp. [notes]) across a derivation from store [σ]
    to store [σ']: the array [l] of the derived object is the one its
    configuration was given, or else a new empty array. *)
Definition inherited (σ σ' : store) (given : option ref) (l : ref) (empty : cell) : Prop :=
  match given with
  | Some l0 => l = l0
  | None => σ !! l = None ∧ σ' !! l = Some empty
  end.

(** A derivation step, and a chain of them applied left to right. *)
Inductive Derivation :=
| DFrom (cause : ref)
| DAddNote (note : string).

Definition derive1 (e : ref) (d : Derivation) : M ref :=
  match d with
  | DFrom c => from e c
  | DAddNote n => addNote e n
  end.

Fixpoint derive (e : ref) (ds : list Derivation) : M ref :=
  match ds with
  | [] => ret e
  | d :: ds' => e' <- derive1 e d ;; derive e' ds'
  end.

(** What a chain of derivations contributes: the causes it appends to the
    stack, the notes it appends, and the cause it leaves (the one of the last
    [from], if any). *)
Fixpoint causesOf (ds : list Derivation) : list ref :=
  match ds with
  | [] => []
  | DFrom c :: ds' => c :: causesOf ds'
  | DAddNote _ :: ds' => causesOf ds'
  end.

Fixpoint notesAdded (ds : list Derivation) : list string :=
  match ds with
  | [] => []
  | DFrom _ :: ds' => notesAdded ds'
  | DAddNote n :: ds' => n :: notesAdded ds'
  end.

Fixpoint lastCause (old : option ref) (ds : list Derivation) : option ref :=
  match ds with
  | [] => old
  | DFrom c :: ds' => lastCause (Some c) ds'
  | DAddNote _ :: ds' => lastCause old ds'
  end.

End Errors.

(** ** The outcome algebra *)

Module Types.

(** Modelled from the spec: [Result], [success] and [failure] of [../types]
    are not among the sources.  A Result is tagged as exactly one of
    [Success{value}] or [Failure{error}]. *)
Inductive Result (T E : Type) :=
| Success (value : T)
| Failure (error : E).
Arguments Success {T E} _.
Arguments Failure {T E} _.

Definition success {T E} (value : T) : Result T E := Success value.
Definition failure {T E} (error : E) : Result T E := Failure error.

Definition isSuccess {T E} (r : Result T E) : bool :=
  match r with Success _ => true | Failure _ => false end.

Definition isError {T E} (r : Result T E) : bool :=
  match r with Success _ => false | Failure _ => true end.

End Types.

(** ** The argument validator adapter *)

Module Args.
Import Store Errors Types.
Local Open Scope m_scope.

Section ParseArgs.
(** The schema validator is external: a schema, an untyped input, and what
    [schema.safeParse(input)] answers. *)
Context {Schema Input Data : Type}.

Inductive SafeParseReturn :=
| ParseOk (data : Data)              (* { success: true, data } *)
| ParseErr (message : string).       (* { success: false, error }, [error.message] *)

Variable safeParse : Schema → Input → SafeParseReturn.

(** The input structurally matches the schema when the validator says so. *)
Definition matches (schema : Schema) (input : Input) : bool :=
  match safeParse schema input with
  | ParseOk _ => true
  | ParseErr _ => false
  end.

(** [parseArgs(schema, input)]. *)
Definition parseArgs (schema : Schema) (input : Input) : M (Result Data ref) :=
  match safeParse schema input with
  | ParseErr msg =>
      e <- exception {| cfg_name := "ValidatedArgsError";
                        cfg_namespace := None;
                        cfg_code := None;
                        cfg_message := Some msg;
                        cfg_cause := None;
                        cfg_stack := None;
                        cfg_notes := None |} ;;
      ret (failure e)
  | ParseOk data => ret (success data)
  end.
End ParseArgs.

Arguments SafeParseReturn : clear implicits.

End Args.

(** ** The check combinators *)

Module Checks.
Import Store Errors Types.
Local Open Scope m_scope.

Section Combinators.
(** The request context and the raw arguments are opaque to the engine. *)
Context {Ctx RawArgs : Type}.

(** Modelled from the spec: the Check type is not among the sources.  A
    Check, once invoked with [(context, args)], produces a
    [Result<Unit, Exception>].  Awaiting it is sequencing in [M]: whatever a
    handler does to the world is a store transformation, and a handler that
    throws is a fault. *)
Definition CheckResult := Result unit ref.
Definition Check := Ctx → RawArgs → M CheckResult.

(** The spec has the group of failures "wrapped as a single Exception" and
    leaves the wrapping open. *)
Variable wrapGroup : ExceptionGroup → M ref.

(** Modelled from the spec: [checkAll] is not among the sources.  Evaluate
    the checks in the given order, one at a time; on the first failure stop
    and return that failure unchanged; if every check succeeds return
    [success(unit)]. *)
Fixpoint checkAll (checks : list Check) : Check :=
  λ ctx args,
    match checks with
    | [] => ret (success ())
    | c :: rest =>
        r <- c ctx args ;;
        match r with
        | Failure _ => ret r
        | Success _ => checkAll rest ctx args
        end
    end.

(** Modelled from the spec: the loop of [checkAny] (not among the sources)
    once a first failure has been collected; [failures] are the failures so
    far, in evaluation order. *)
Fixpoint anyOf (checks : list Check) (failures : NonEmptyArray ref) : Check :=
  λ ctx args,
    match checks with
    | [] =>
        e <- wrapGroup (group "checkAny" failures) ;;
        ret (failure e)
    | c :: rest =>
        r <- c ctx args ;;
        match r with
        | Success _ => ret r
        | Failure e =>
            anyOf rest {| first := first failures;
                          others := others failures ++ [e] |} ctx args
        end
    end.

(** Modelled from the spec: [checkAny] is not among the sources.  Evaluate
    the checks in order; on the first success stop and return it; if every
    check fails return a failure built from
    [group("checkAny", allFailures)]; given zero checks, fail with an
    [EmptyCheckSetError] Exception. *)
Definition checkAny (checks : list Check) : Check :=
  λ ctx args,
    match checks with
    | [] =>
        e <- exception {| cfg_name := "EmptyCheckSetError";
                          cfg_namespace := None;
                          cfg_code := None;
                          cfg_message := None;
                          cfg_cause := None;
                          cfg_stack := None;
                          cfg_notes := None |} ;;
        ret (failure e)
    | c :: rest =>
        r <- c ctx args ;;
        match r with
        | Success _ => ret r
        | Failure e => anyOf rest {| first := e; others := [] |} ctx args
        end
    end.

(** Every check of a list evaluated in order, none skipped: the yardstick
    the short-circuiting combinators are measured against. *)
Fixpoint runEach (checks : list Check) (ctx : Ctx) (args : RawArgs) : M (list CheckResult) :=
  match checks with
  | [] => ret []
  | c :: rest =>
      r <- c ctx args ;;
      rs <- runEach rest ctx args ;;
      ret (r :: rs)
  end.

End Combinators.

End Checks.

(** ** Sample values *)

Module Examples.
Import Store Errors Types.
Local Open Scope m_scope.

Definition notFoundHttp : ExceptionConfig :=
  mkConfig "NotFound" (Some "Http") None None None None None.

Definition notFound : ExceptionConfig :=
  mkConfig "NotFound" None None None None None None.

Definition timeout : ExceptionConfig :=
  mkConfig "Timeout" None (Some "E_TIMEOUT") (Some "took too long") None None None.

(** [exception(notFoundHttp)], [exception(notFound)] and
    [exception(timeout)] evaluated in this order in an empty store: the three
    objects sit at references 3, 6 and 9. *)
Definition threeExceptions : store :=
  match (a <- exception notFoundHttp ;;
         b <- exception notFound ;;
         exception timeout) ∅ with
  | Some (_, σ) => σ
  | None => ∅
  end.

Definition eHttp : ref := 3%positive.
Definition ePlain : ref := 6%positive.
Definition eTimeout : ref := 9%positive.

Definition httpSpace : ExceptionSpaceConfig := mkSpaceConfig "Http" critical.

Definition bareTimeout : ConfigWithoutNamespace :=
  mkBare "Timeout" (Some "E_TIMEOUT") None None None None.

(** A validator for [{ userId: non-empty string }]: the input is the
    [userId] property, when there is one. *)
Definition userIdSchema (_ : unit) (input : option string) : Args.SafeParseReturn string :=
  match input with
  | Some id => if String.eqb id "" then Args.ParseErr "userId must not be empty"
               else Args.ParseOk id
  | None => Args.ParseErr "userId is required"
  end.

(** Checks over a context that is the caller's role. *)
Definition allow : @Checks.Check string unit := λ _ _, ret (success ()).

Definition deny (config : ExceptionConfig) : @Checks.Check string unit :=
  λ _ _, e <- exception config ;; ret (failure e).

Definition isAdmin : @Checks.Check string unit :=
  λ role _,
    if String.eqb role "admin" then ret (success ())
    else e <- exception (mkConfig "UnauthorizedError" None None None None None None) ;;
         ret (failure e).

(** A check whose handler throws. *)
Definition crash : @Checks.Check string unit := λ _ _ _, None.

(** One way to present a group as a single Exception: named after the
    group, the members as its stack. *)
Definition asException (g : ExceptionGroup) : M ref :=
  members <- alloc (ExceptionArray (toList (exceptions g))) ;;
  exception (mkConfig (group_name g) None None None None (Some members) None).

(** [threeExceptions] after one more [exception(notFoundHttp)]: a second
    ["NotFound"] in namespace ["Http"], at reference 12. *)
Definition fourExceptions : store :=
  match exception notFoundHttp threeExceptions with
  | Some (_, σ) => σ
  | None => ∅
  end.

Definition eHttp' : ref := 12%positive.

End Examples.

(** * Properties *)

Import Store Errors Types Examples.
Local Open Scope m_scope.
Local Open Scope list_scope.

(** ** The store only grows *)

Section StoreFacts.
Implicit Types (σ : store) (l r e : ref) (c : cell).

Lemma alloc_spec c σ :
  ∃ l, alloc c σ = Some (l, <[l := c]> σ) ∧ σ !! l = None.
Proof.
  exists (fresh (dom σ)). split; [reflexivity|].
  apply not_elem_of_dom, is_fresh.
Qed.

Lemma fresh_insert_subseteq σ l c : σ !! l = None → σ ⊆ <[l := c]> σ.
Proof. intros. by apply insert_subseteq. Qed.

Lemma lookup_extends σ σ' l c : σ ⊆ σ' → σ !! l = Some c → σ' !! l = Some c.
Proof. intros Hsub Hl. by eapply lookup_weaken. Qed.

Lemma fresh_not_in_dom σ l : σ !! l = None → l ∉ dom σ.
Proof. by rewrite not_elem_of_dom. Qed.

(** [config.stack ?? []]: either the given array, or a fresh empty one. *)
Lemma nullish_spec (a : option ref) c σ :
  ∃ l σ', nullish a (alloc c) σ = Some (l, σ') ∧ σ ⊆ σ' ∧
    match a with
    | Some l0 => l = l0 ∧ σ' = σ
    | None => σ !! l = None ∧ σ' = <[l := c]> σ
    end.
Proof.
  destruct a as [l0|]; simpl.
  - exists l0, σ. by unfold ret.
  - destruct (alloc_spec c σ) as (l & Hl & Hfresh).
    exists l, (<[l := c]> σ). split_and!; auto using fresh_insert_subseteq.
Qed.

End StoreFacts.

(** ** What [exception] allocates *)

Section ExceptionFacts.
Implicit Types (σ : store) (l r e c : ref) (o : ExceptionObj).

Lemma exception_spec (cfg : ExceptionConfig) σ :
  ∃ r σ' s n,
    exception cfg σ = Some (r, σ') ∧ σ ⊆ σ' ∧ σ !! r = None ∧
    σ' !! r = Some (ExceptionObject (mkObj cfg s n)) ∧
    match cfg_stack cfg with
    | Some s0 => s = s0
    | None => σ !! s = None ∧ σ' !! s = Some (ExceptionArray [])
    end ∧
    match cfg_notes cfg with
    | Some n0 => n = n0
    | None => σ !! n = None ∧ σ' !! n = Some (StringArray [])
    end.
Proof.
  unfold exception, bind.
  destruct (nullish_spec (cfg_stack cfg) (ExceptionArray []) σ)
    as (s & σ1 & -> & Hsub1 & Hs).
  destruct (nullish_spec (cfg_notes cfg) (StringArray []) σ1)
    as (n & σ2 & -> & Hsub2 & Hn).
  destruct (alloc_spec (ExceptionObject (mkObj cfg s n)) σ2) as (r & -> & Hr).
  exists r, (<[r := ExceptionObject (mkObj cfg s n)]> σ2), s, n.
  assert (Hsub3 : σ2 ⊆ <[r := ExceptionObject (mkObj cfg s n)]> σ2)
    by by apply fresh_insert_subseteq.
  assert (Hsub13 : σ1 ⊆ <[r := ExceptionObject (mkObj cfg s n)]> σ2)
    by by etrans.
  split_and!.
  - reflexivity.
  - by etrans.
  - eapply lookup_weaken_None; [exact Hr|]. by etrans.
  - by rewrite lookup_insert_eq.
  - destruct (cfg_stack cfg) as [s0|].
    + by destruct Hs.
    + destruct Hs as [Hfresh ->]. split; [done|].
      eapply lookup_extends; [exact Hsub13|]. by rewrite lookup_insert_eq.
  - destruct (cfg_notes cfg) as [n0|].
    + by destruct Hn.
    + destruct Hn as [Hfresh ->]. split.
      * eapply lookup_weaken_None; [exact Hfresh | exact Hsub1].
      * eapply lookup_extends; [exact Hsub3|]. by rewrite lookup_insert_eq.
Qed.

Lemma wf_exception_inv σ e :
  wf_exception σ e = true →
  ∃ o st ns,
    σ !! e = Some (ExceptionObject o) ∧
    σ !! stack o = Some (ExceptionArray st) ∧
    σ !! notes o = Some (StringArray ns) ∧
    match cfg_stack (config o) with Some s => s = stack o | None => st = [] end ∧
    match cfg_notes (config o) with Some n => n = notes o | None => ns = [] end.
Proof.
  unfold wf_exception. intros H.
  destruct (σ !! e) as [[| |o]|] eqn:He; try discriminate.
  destruct (σ !! stack o) as [[st| |]|] eqn:Hst; try discriminate.
  destruct (σ !! notes o) as [[|ns|]|] eqn:Hns; try discriminate.
  apply andb_prop in H as [H1 H2].
  exists o, st, ns. split_and!; try done.
  - destruct (cfg_stack (config o)); by apply bool_decide_eq_true in H1.
  - destruct (cfg_notes (config o)); by apply bool_decide_eq_true in H2.
Qed.

Lemma wf_exception_intro σ e o st ns :
  σ !! e = Some (ExceptionObject o) →
  σ !! stack o = Some (ExceptionArray st) →
  σ !! notes o = Some (StringArray ns) →
  match cfg_stack (config o) with Some s => s = stack o | None => st = [] end →
  match cfg_notes (config o) with Some n => n = notes o | None => ns = [] end →
  wf_exception σ e = true.
Proof.
  intros He Hst Hns H1 H2. unfold wf_exception. rewrite He, Hst, Hns.
  apply andb_true_intro. split.
  - destruct (cfg_stack (config o)); by apply bool_decide_eq_true.
  - destruct (cfg_notes (config o)); by apply bool_decide_eq_true.
Qed.

(** Well-formedness survives any growth of the store. *)
Lemma wf_exception_mono σ σ' e :
  σ ⊆ σ' → wf_exception σ e = true → wf_exception σ' e = true.
Proof.
  intros Hsub (o & st & ns & He & Hst & Hns & H1 & H2)%wf_exception_inv.
  eapply wf_exception_intro; eauto using lookup_extends.
Qed.

(** [exception] establishes well-formedness, whatever arrays the
    configuration brings along. *)
Lemma exception_wf (cfg : ExceptionConfig) σ :
  wf_config σ cfg = true →
  ∃ r σ',
    exception cfg σ = Some (r, σ') ∧ σ ⊆ σ' ∧ σ !! r = None ∧
    wf_exception σ' r = true.
Proof.
  unfold wf_config. intros [Hs Hn]%andb_prop.
  destruct (exception_spec cfg σ) as (r & σ' & s & n & Hex & Hsub & Hr & Ho & Hs' & Hn').
  exists r, σ'. split_and!; try done.
  assert (∃ st, σ' !! s = Some (ExceptionArray st) ∧
                match cfg_stack cfg with Some s0 => s0 = s | None => st = [] end)
    as (st & Hst & Hst').
  { destruct (cfg_stack cfg) as [s0|].
    - subst s. destruct (σ !! s0) as [[st| |]|] eqn:E; try discriminate.
      exists st. split; [by eapply lookup_extends | done].
    - exists []. by destruct Hs'. }
  assert (∃ ns, σ' !! n = Some (StringArray ns) ∧
                match cfg_notes cfg with Some n0 => n0 = n | None => ns = [] end)
    as (ns & Hns & Hns').
  { destruct (cfg_notes cfg) as [n0|].
    - subst n. destruct (σ !! n0) as [[|ns|]|] eqn:E; try discriminate.
      exists ns. split; [by eapply lookup_extends | done].
    - exists []. by destruct Hn'. }
  by eapply (wf_exception_intro σ' r (mkObj cfg s n) st ns).
Qed.

End ExceptionFacts.

(** ** The two derivations, object by object *)

Section DerivationFacts.
Implicit Types (σ : store) (l r e c : ref) (o : ExceptionObj).

Lemma from_spec σ e c o st :
  σ !! e = Some (ExceptionObject o) →
  σ !! stack o = Some (ExceptionArray st) →
  ∃ r σ' o',
    from e c σ = Some (r, σ') ∧ σ ⊆ σ' ∧ σ !! r = None ∧
    σ' !! r = Some (ExceptionObject o') ∧
    name o' = name o ∧ namespace o' = namespace o ∧
    code o' = code o ∧ message o' = message o ∧
    cause o' = Some c ∧
    cfg_stack (config o') = Some (stack o') ∧
    σ !! stack o' = None ∧
    σ' !! stack o' = Some (ExceptionArray (st ++ [c])) ∧
    cfg_notes (config o') = cfg_notes (config o) ∧
    inherited σ σ' (cfg_notes (config o)) (notes o') (StringArray []).
Proof.
  intros He Hst. unfold from, bind, readException, readExceptionArray.
  rewrite He, Hst.
  destruct (alloc_spec (ExceptionArray (st ++ [c])) σ) as (s' & -> & Hs').
  set (σ1 := <[s' := ExceptionArray (st ++ [c])]> σ).
  set (cfg := mkConfig _ _ _ _ _ _ _).
  destruct (exception_spec cfg σ1) as (r & σ' & s & n & -> & Hsub & Hr & Hobj & Hs & Hn).
  simpl in Hs, Hn. subst s.
  assert (Hsub1 : σ ⊆ σ1) by by apply fresh_insert_subseteq.
  exists r, σ', (mkObj cfg s' n). split_and!; try done.
  - by etrans.
  - by eapply lookup_weaken_None.
  - eapply lookup_extends; [exact Hsub|]. subst σ1. by rewrite lookup_insert_eq.
  - unfold inherited. simpl. destruct (cfg_notes (config o)); [done|].
    destruct Hn as [Hn1 Hn2]. split; [|done]. by eapply lookup_weaken_None.
Qed.

Lemma addNote_spec σ e note o ns :
  σ !! e = Some (ExceptionObject o) →
  σ !! notes o = Some (StringArray ns) →
  ∃ r σ' o',
    addNote e note σ = Some (r, σ') ∧ σ ⊆ σ' ∧ σ !! r = None ∧
    σ' !! r = Some (ExceptionObject o') ∧
    name o' = name o ∧ namespace o' = namespace o ∧
    code o' = code o ∧ message o' = message o ∧
    cause o' = cause o ∧
    cfg_notes (config o') = Some (notes o') ∧
    σ !! notes o' = None ∧
    σ' !! notes o' = Some (StringArray (ns ++ [note])) ∧
    cfg_stack (config o') = cfg_stack (config o) ∧
    inherited σ σ' (cfg_stack (config o)) (stack o') (ExceptionArray []).
Proof.
  intros He Hns. unfold addNote, bind, readException, readStringArray.
  rewrite He, Hns.
  destruct (alloc_spec (StringArray (ns ++ [note])) σ) as (n' & -> & Hn').
  set (σ1 := <[n' := StringArray (ns ++ [note])]> σ).
  set (cfg := mkConfig _ _ _ _ _ _ _).
  destruct (exception_spec cfg σ1) as (r & σ' & s & n & -> & Hsub & Hr & Hobj & Hs & Hn).
  simpl in Hs, Hn. subst n.
  assert (Hsub1 : σ ⊆ σ1) by by apply fresh_insert_subseteq.
  exists r, σ', (mkObj cfg s n'). split_and!; try done.
  - by etrans.
  - by eapply lookup_weaken_None.
  - eapply lookup_extends; [exact Hsub|]. subst σ1. by rewrite lookup_insert_eq.
  - unfold inherited. simpl. destruct (cfg_stack (config o)); [done|].
    destruct Hs as [Hs1 Hs2]. split; [|done]. by eapply lookup_weaken_None.
Qed.

(** A derived Exception is again well formed, is new, and keeps the name and
    the namespace of its receiver. *)
Lemma from_wf σ e c :
  wf_exception σ e = true →
  ∃ r σ' o o',
    from e c σ = Some (r, σ') ∧ σ ⊆ σ' ∧ σ !! r = None ∧
    σ !! e = Some (ExceptionObject o) ∧
    σ' !! r = Some (ExceptionObject o') ∧
    name o' = name o ∧ namespace o' = namespace o ∧
    wf_exception σ' r = true.
Proof.
  intros (o & st & ns & He & Hst & Hns & _ & Hn)%wf_exception_inv.
  destruct (from_spec σ e c o st He Hst)
    as (r & σ' & o' & Hfrom & Hsub & Hr & Ho' & Hname & Hnsp & _ & _ & _
        & Hcs & _ & Hst' & Hcn & Hinh).
  exists r, σ', o, o'. split_and!; try done.
  unfold inherited in Hinh.
  destruct (cfg_notes (config o)) as [n0|] eqn:Hn0.
  - eapply (wf_exception_intro σ' r o' _ ns); eauto.
    + rewrite Hinh, Hn. by eapply lookup_extends.
    + by rewrite Hcs.
    + by rewrite Hcn, Hinh.
  - destruct Hinh as [_ Hnew].
    eapply (wf_exception_intro σ' r o' _ []); eauto.
    + by rewrite Hcs.
    + by rewrite Hcn.
Qed.

Lemma addNote_wf σ e note :
  wf_exception σ e = true →
  ∃ r σ' o o',
    addNote e note σ = Some (r, σ') ∧ σ ⊆ σ' ∧ σ !! r = None ∧
    σ !! e = Some (ExceptionObject o) ∧
    σ' !! r = Some (ExceptionObject o') ∧
    name o' = name o ∧ namespace o' = namespace o ∧
    wf_exception σ' r = true.
Proof.
  intros (o & st & ns & He & Hst & Hns & Hs & _)%wf_exception_inv.
  destruct (addNote_spec σ e note o ns He Hns)
    as (r & σ' & o' & Hadd & Hsub & Hr & Ho' & Hname & Hnsp & _ & _ & _
        & Hcn & _ & Hns' & Hcs & Hinh).
  exists r, σ', o, o'. split_and!; try done.
  unfold inherited in Hinh.
  destruct (cfg_stack (config o)) as [s0|] eqn:Hs0.
  - eapply (wf_exception_intro σ' r o' st _); eauto.
    + rewrite Hinh, Hs. by eapply lookup_extends.
    + by rewrite Hcs, Hinh.
    + by rewrite Hcn.
  - destruct Hinh as [_ Hnew].
    eapply (wf_exception_intro σ' r o' [] _); eauto.
    + by rewrite Hcs.
    + by rewrite Hcn.
Qed.

Lemma derive_wf σ e ds :
  wf_exception σ e = true →
  ∃ r σ' o o',
    derive e ds σ = Some (r, σ') ∧ σ ⊆ σ' ∧
    σ !! e = Some (ExceptionObject o) ∧
    σ' !! r = Some (ExceptionObject o') ∧
    name o' = name o ∧ namespace o' = namespace o ∧
    wf_exception σ' r = true.
Proof.
  revert σ e. induction ds as [|d ds IH]; intros σ e Hwf.
  - destruct (wf_exception_inv σ e Hwf) as (o & ? & ? & He & _).
    exists e, σ, o, o. by split_and!.
  - assert (∃ r σ' o o',
        derive1 e d σ = Some (r, σ') ∧ σ ⊆ σ' ∧ σ !! r = None ∧
        σ !! e = Some (ExceptionObject o) ∧
        σ' !! r = Some (ExceptionObject o') ∧
        name o' = name o ∧ namespace o' = namespace o ∧
        wf_exception σ' r = true)
      as (r1 & σ1 & o & o1 & Hstep & Hsub1 & _ & He & Hr1 & Hname1 & Hnsp1 & Hwf1).
    { destruct d; [by apply from_wf | by apply addNote_wf]. }
    destruct (IH σ1 r1 Hwf1)
      as (r & σ' & o1' & o' & Hrest & Hsub & Hr1' & Hr & Hname & Hnsp & Hwf').
    assert (o1' = o1) as -> by congruence.
    exists r, σ', o, o'. split_and!; try done.
    + simpl. unfold bind. by rewrite Hstep.
    + by etrans.
    + congruence.
    + congruence.
Qed.

End DerivationFacts.

(** ** Reading properties back *)

Section ReadFacts.
Implicit Types (σ : store) (l r e c : ref) (o : ExceptionObj).

Lemma eval_readException σ e o :
  σ !! e = Some (ExceptionObject o) → eval (readException e) σ = Some o.
Proof. intros H. unfold eval, readException. by rewrite H. Qed.

Lemma stackOf_spec σ e o st :
  σ !! e = Some (ExceptionObject o) →
  σ !! stack o = Some (ExceptionArray st) →
  eval (stackOf e) σ = Some st.
Proof.
  intros He Hst.
  unfold eval, stackOf, bind, readException, readExceptionArray.
  by rewrite He, Hst.
Qed.

Lemma notesOf_spec σ e o ns :
  σ !! e = Some (ExceptionObject o) →
  σ !! notes o = Some (StringArray ns) →
  eval (notesOf e) σ = Some ns.
Proof.
  intros He Hns.
  unfold eval, notesOf, bind, readException, readStringArray.
  by rewrite He, Hns.
Qed.

Lemma fieldsOf_spec σ e o st ns :
  σ !! e = Some (ExceptionObject o) →
  σ !! stack o = Some (ExceptionArray st) →
  σ !! notes o = Some (StringArray ns) →
  eval (fieldsOf e) σ =
    Some (mkFields (name o) (namespace o) (code o) (message o) (cause o) st ns).
Proof.
  intros He Hst Hns.
  unfold eval, fieldsOf, bind, readException, readExceptionArray, readStringArray.
  by rewrite He, Hst, Hns.
Qed.

(** What [is_] answers, from the two objects it reads. *)
Lemma is_spec σ e x oe ox :
  σ !! e = Some (ExceptionObject oe) →
  σ !! x = Some (ExceptionObject ox) →
  is_ e x σ =
    Some (bool_decide (name ox = name oe)
          && (if truthy (namespace oe)
              then bool_decide (namespace ox = namespace oe)
              else true), σ).
Proof.
  intros He Hx. unfold is_, bind, readException. by rewrite He, Hx.
Qed.

Lemma extends_frame σ σ' l : σ ⊆ σ' → l ∈ dom σ → σ' !! l = σ !! l.
Proof.
  intros Hsub [c Hc]%elem_of_dom. rewrite Hc. by eapply lookup_extends.
Qed.

(** [e.is(x)] after a step that turned [e] into [r] without touching what
    was there and without changing name or namespace. *)
Lemma is_after_step σ e x (m : M ref) :
  wf_exception σ x = true →
  (∃ r σ' o o',
     m σ = Some (r, σ') ∧ σ ⊆ σ' ∧
     σ !! e = Some (ExceptionObject o) ∧
     σ' !! r = Some (ExceptionObject o') ∧
     name o' = name o ∧ namespace o' = namespace o) →
  ∃ b, eval (is_ e x) σ = Some b ∧ eval (r <- m ;; is_ r x) σ = Some b.
Proof.
  intros (ox & ? & ? & Hx & _)%wf_exception_inv
         (r & σ' & o & o' & Hm & Hsub & He & Hr & Hname & Hnsp).
  eexists. split.
  - unfold eval. by rewrite (is_spec σ e x o ox He Hx).
  - unfold eval, bind. rewrite Hm.
    rewrite (is_spec σ' r x o' ox Hr (lookup_extends _ _ _ _ Hsub Hx)).
    simpl. by rewrite Hname, Hnsp.
Qed.

End ReadFacts.

(** ** The Exception model *)

Section ExceptionModel.
Implicit Types (σ : store) (l r e c x : ref) (o : ExceptionObj).

(** C1.  For an Exception [e] and causes [c1], [c2]: [e.from(c1)] is a new
    Exception whose [cause] is [c1] and whose [stack] is [e]'s stack with
    [c1] appended (one element longer), and [e.from(c1).from(c2)] has the
    stack of [e] followed by [c1] then [c2]. *)
Theorem from_appends_cause σ e c1 c2 :
  wf_exception σ e = true →
  ∃ st r1 σ1 r2 σ2,
    eval (stackOf e) σ = Some st ∧
    from e c1 σ = Some (r1, σ1) ∧
    (r1 ∉ dom σ) ∧
    (cause <$> eval (readException r1) σ1) = Some (Some c1) ∧
    eval (stackOf r1) σ1 = Some (st ++ [c1]) ∧
    length (st ++ [c1]) = S (length st) ∧
    from r1 c2 σ1 = Some (r2, σ2) ∧
    eval (stackOf r2) σ2 = Some (st ++ [c1; c2]).
Proof.
  intros (o & st & ns & He & Hst & _)%wf_exception_inv.
  destruct (from_spec σ e c1 o st He Hst)
    as (r1 & σ1 & o1 & Hfrom1 & Hsub1 & Hr1 & Ho1 & _ & _ & _ & _ & Hc1 & _ & _ & Hst1 & _).
  destruct (from_spec σ1 r1 c2 o1 (st ++ [c1]) Ho1 Hst1)
    as (r2 & σ2 & o2 & Hfrom2 & Hsub2 & Hr2 & Ho2 & _ & _ & _ & _ & _ & _ & _ & Hst2 & _).
  exists st, r1, σ1, r2, σ2. split_and!.
  - by eapply stackOf_spec.
  - done.
  - by apply fresh_not_in_dom.
  - erewrite eval_readException by done. simpl. by rewrite Hc1.
  - by eapply stackOf_spec.
  - rewrite length_app. simpl. lia.
  - done.
  - erewrite stackOf_spec by done. by rewrite <- app_assoc.
Qed.

Lemma from_appends_cause_witness :
  wf_exception threeExceptions eTimeout = true ∧
  ∃ st r1 σ1 r2 σ2,
    eval (stackOf eTimeout) threeExceptions = Some st ∧
    from eTimeout eHttp threeExceptions = Some (r1, σ1) ∧
    (r1 ∉ dom threeExceptions) ∧
    (cause <$> eval (readException r1) σ1) = Some (Some eHttp) ∧
    eval (stackOf r1) σ1 = Some (st ++ [eHttp]) ∧
    length (st ++ [eHttp]) = S (length st) ∧
    from r1 ePlain σ1 = Some (r2, σ2) ∧
    eval (stackOf r2) σ2 = Some (st ++ [eHttp; ePlain]).
Proof.
  split; [reflexivity|].
  apply (from_appends_cause threeExceptions eTimeout eHttp ePlain). reflexivity.
Defined.

(** C2, as stated, fails: a receiver in namespace ["Http"] compared with a
    same-named comparand that has no namespace answers [false], and the
    reverse comparison answers [true]. *)
Lemma is_comparand_namespace_counterexample :
  eval (is_ eHttp ePlain) threeExceptions = Some false ∧
  (oe ← eval (readException eHttp) threeExceptions;
   ox ← eval (readException ePlain) threeExceptions;
   Some (sameKindAsSpecified oe ox)) = Some true ∧
  eval (is_ ePlain eHttp) threeExceptions = Some true ∧
  (oe ← eval (readException ePlain) threeExceptions;
   ox ← eval (readException eHttp) threeExceptions;
   Some (sameKindAsSpecified oe ox)) = Some false.
Proof. split_and!; reflexivity. Qed.

(** C2, amended.  [e.is(o)] is true exactly when the names match and, when
    the receiver [e] has a non-empty namespace, the namespace of [o] equals
    it; a receiver without a namespace (or with an empty one) matches any
    namespace.  The comparison reads the store and leaves it as it was. *)
Theorem is_matches_receiver_namespace σ e x :
  wf_exception σ e = true →
  wf_exception σ x = true →
  ∃ oe ox b,
    eval (readException e) σ = Some oe ∧
    eval (readException x) σ = Some ox ∧
    is_ e x σ = Some (b, σ) ∧
    (b = true ↔
       name ox = name oe ∧
       (truthy (namespace oe) = true → namespace ox = namespace oe)) ∧
    (truthy (namespace oe) = false → (b = true ↔ name ox = name oe)).
Proof.
  intros (oe & ? & ? & He & _)%wf_exception_inv (ox & ? & ? & Hx & _)%wf_exception_inv.
  exists oe, ox. eexists. split_and!.
  - by apply eval_readException.
  - by apply eval_readException.
  - by apply is_spec.
  - rewrite andb_true_iff, bool_decide_eq_true.
    destruct (truthy (namespace oe)).
    + rewrite bool_decide_eq_true. tauto.
    + intuition discriminate.
  - intros ->. rewrite andb_true_iff, bool_decide_eq_true. tauto.
Qed.

Lemma is_matches_receiver_namespace_witness :
  wf_exception threeExceptions eHttp = true ∧
  wf_exception threeExceptions ePlain = true ∧
  ∃ oe ox b,
    eval (readException eHttp) threeExceptions = Some oe ∧
    eval (readException ePlain) threeExceptions = Some ox ∧
    is_ eHttp ePlain threeExceptions = Some (b, threeExceptions) ∧
    (b = true ↔
       name ox = name oe ∧
       (truthy (namespace oe) = true → namespace ox = namespace oe)) ∧
    (truthy (namespace oe) = false → (b = true ↔ name ox = name oe)).
Proof.
  split; [reflexivity|]. split; [reflexivity|].
  apply (is_matches_receiver_namespace threeExceptions eHttp ePlain); reflexivity.
Defined.



(** C8.  [e.addNote(n)] is a new Exception whose notes are those of [e] with
    [n] appended at the end; name, namespace, code, message, cause and stack
    are those of [e]. *)
Theorem addNote_appends_note σ e note :
  wf_exception σ e = true →
  ∃ F r σ',
    eval (fieldsOf e) σ = Some F ∧
    addNote e note σ = Some (r, σ') ∧
    (r ∉ dom σ) ∧
    eval (fieldsOf r) σ' =
      Some (mkFields (f_name F) (f_namespace F) (f_code F) (f_message F)
                     (f_cause F) (f_stack F) (f_notes F ++ [note])).
Proof.
  intros (o & st & ns & He & Hst & Hns & Hs & _)%wf_exception_inv.
  destruct (addNote_spec σ e note o ns He Hns)
    as (r & σ' & o' & Hadd & Hsub & Hr & Ho' & Hname & Hnsp & Hcode & Hmsg
        & Hcause & _ & _ & Hns' & _ & Hinh).
  eexists _, r, σ'. split_and!.
  - by eapply fieldsOf_spec.
  - done.
  - by apply fresh_not_in_dom.
  - simpl. rewrite <- Hname, <- Hnsp, <- Hcode, <- Hmsg, <- Hcause.
    eapply fieldsOf_spec; [done | | done].
    unfold inherited in Hinh. destruct (cfg_stack (config o)) as [s0|].
    + rewrite Hinh, Hs. by eapply lookup_extends.
    + destruct Hinh as [_ Hnew]. by rewrite Hs.
Qed.

Lemma addNote_appends_note_witness :
  wf_exception threeExceptions eTimeout = true ∧
  ∃ F r σ',
    eval (fieldsOf eTimeout) threeExceptions = Some F ∧
    addNote eTimeout "retried twice" threeExceptions = Some (r, σ') ∧
    (r ∉ dom threeExceptions) ∧
    eval (fieldsOf r) σ' =
      Some (mkFields (f_name F) (f_namespace F) (f_code F) (f_message F)
                     (f_cause F) (f_stack F) (f_notes F ++ ["retried twice"])).
Proof.
  split; [reflexivity|].
  apply (addNote_appends_note threeExceptions eTimeout "retried twice").
  reflexivity.
Defined.

(** C9.  Kind identity is stable under derivation: [e.from(c).is(x)] and
    [e.addNote(n).is(x)] answer what [e.is(x)] answers, and so does the
    comparison after any chain of derivations from [e]. *)
Theorem is_stable_under_derivation σ e x c note ds :
  wf_exception σ e = true →
  wf_exception σ x = true →
  ∃ b,
    eval (is_ e x) σ = Some b ∧
    eval (r <- from e c ;; is_ r x) σ = Some b ∧
    eval (r <- addNote e note ;; is_ r x) σ = Some b ∧
    eval (r <- derive e ds ;; is_ r x) σ = Some b.
Proof.
  intros He Hx.
  destruct (is_after_step σ e x (from e c) Hx) as (b1 & Hb1 & Hfrom).
  { destruct (from_wf σ e c He) as (r & σ' & o & o' & ? & ? & ? & ? & ? & ? & ? & ?).
    by exists r, σ', o, o'. }
  destruct (is_after_step σ e x (addNote e note) Hx) as (b2 & Hb2 & Hadd).
  { destruct (addNote_wf σ e note He) as (r & σ' & o & o' & ? & ? & ? & ? & ? & ? & ? & ?).
    by exists r, σ', o, o'. }
  destruct (is_after_step σ e x (derive e ds) Hx) as (b3 & Hb3 & Hder).
  { destruct (derive_wf σ e ds He) as (r & σ' & o & o' & ? & ? & ? & ? & ? & ? & ?).
    by exists r, σ', o, o'. }
  exists b1. split_and!; [done | done | congruence | congruence].
Qed.

Lemma is_stable_under_derivation_witness :
  wf_exception threeExceptions eHttp = true ∧
  wf_exception threeExceptions ePlain = true ∧
  ∃ b,
    eval (is_ eHttp ePlain) threeExceptions = Some b ∧
    eval (r <- from eHttp eTimeout ;; is_ r ePlain) threeExceptions = Some b ∧
    eval (r <- addNote eHttp "seen" ;; is_ r ePlain) threeExceptions = Some b ∧
    eval (r <- derive eHttp [DFrom eTimeout; DAddNote "seen"; DFrom ePlain] ;;
          is_ r ePlain) threeExceptions = Some b.
Proof.
  split; [reflexivity|]. split; [reflexivity|].
  apply (is_stable_under_derivation threeExceptions eHttp ePlain eTimeout "seen"
           [DFrom eTimeout; DAddNote "seen"; DFrom ePlain]); reflexivity.
Defined.

(** C10.  [raise] is the identity: [raise(e)] returns the reference [e]
    itself, without a fault and without touching the store. *)
Theorem raise_is_identity e σ : raise e σ = Some (e, σ).
Proof. reflexivity. Qed.

(** C7, as stated, fails in its last clause: [define] is not the only way to
    a namespaced Exception.  The exported [exception] gives an Exception the
    namespace its caller put in the configuration, no space involved:
    [exception({name: "NotFound", namespace: "Http"})] in an empty store
    reads back with namespace ["Http"].  So it is not true that an Exception
    built without [define] has no namespace. *)
Lemma namespace_without_define_counterexample :
  eval (r <- exception notFoundHttp ;; namespaceOf r) ∅ = Some (Some "Http") ∧
  ¬ (∀ (c : ExceptionConfig) (σ : store) (ns : option string),
       eval (r <- exception c ;; namespaceOf r) σ = Some ns → ns = None).
Proof.
  split; [reflexivity|].
  intros H. specialize (H notFoundHttp ∅ (Some "Http") eq_refl). discriminate.
Qed.

(** C7, amended.  The object returned by [exceptionSpace(space)] exposes
    the severity and the name of [space], and its [define] turns a
    configuration without a namespace into a new Exception whose namespace is
    the name of the space, the other properties being those of the
    configuration.  [define] is the only operation that chooses a namespace
    itself; it is not the only way to a namespaced Exception: [exception]
    gives the Exception the namespace of the configuration it is handed,
    whatever the caller put there, [from] and [addNote] keep the namespace of
    their receiver, and [raise] returns its argument. *)
Theorem define_stamps_space_name space (cfg : ConfigWithoutNamespace) σ :
  severity (exceptionSpace space) = esc_severity space ∧
  space_name (exceptionSpace space) = esc_name space ∧
  (∃ r σ' o,
     define (exceptionSpace space) cfg σ = Some (r, σ') ∧
     (r ∉ dom σ) ∧
     σ' !! r = Some (ExceptionObject o) ∧
     namespace o = Some (esc_name space) ∧
     name o = bare_name cfg ∧ code o = bare_code cfg ∧
     message o = bare_message cfg ∧ cause o = bare_cause cfg) ∧
  (∀ c : ExceptionConfig, ∃ r σ' o,
     exception c σ = Some (r, σ') ∧
     σ' !! r = Some (ExceptionObject o) ∧
     namespace o = cfg_namespace c) ∧
  (∀ e d, wf_exception σ e = true →
     ∃ ns, eval (namespaceOf e) σ = Some ns ∧
           eval (r <- derive1 e d ;; namespaceOf r) σ = Some ns) ∧
  (∀ e, raise e σ = Some (e, σ)).
Proof.
  split_and!; [reflexivity | reflexivity | | | | reflexivity].
  - simpl.
    destruct (exception_spec
                (mkConfig (bare_name cfg) (Some (esc_name space)) (bare_code cfg)
                   (bare_message cfg) (bare_cause cfg) (bare_stack cfg)
                   (bare_notes cfg)) σ)
      as (r & σ' & s & n & Hex & _ & Hr & Ho & _).
    exists r, σ', (mkObj (mkConfig (bare_name cfg) (Some (esc_name space))
                           (bare_code cfg) (bare_message cfg) (bare_cause cfg)
                           (bare_stack cfg) (bare_notes cfg)) s n).
    split_and!; try done. by apply fresh_not_in_dom.
  - intros c. destruct (exception_spec c σ) as (r & σ' & s & n & Hex & _ & _ & Ho & _).
    by exists r, σ', (mkObj c s n).
  - intros e d Hwf.
    assert (∃ r σ' o o',
        derive1 e d σ = Some (r, σ') ∧ σ ⊆ σ' ∧ σ !! r = None ∧
        σ !! e = Some (ExceptionObject o) ∧
        σ' !! r = Some (ExceptionObject o') ∧
        name o' = name o ∧ namespace o' = namespace o ∧
        wf_exception σ' r = true)
      as (r & σ' & o & o' & Hstep & _ & _ & He & Hr & _ & Hnsp & _).
    { destruct d; [by apply from_wf | by apply addNote_wf]. }
    exists (namespace o). split.
    + unfold eval, namespaceOf, bind, readException. by rewrite He.
    + unfold eval, namespaceOf, bind, readException. rewrite Hstep, Hr.
      simpl. by rewrite Hnsp.
Qed.

Lemma define_stamps_space_name_witness :
  wf_exception threeExceptions eHttp = true ∧
  (∃ r σ' o,
     define (exceptionSpace httpSpace) bareTimeout threeExceptions = Some (r, σ') ∧
     σ' !! r = Some (ExceptionObject o) ∧
     namespace o = Some "Http") ∧
  ∃ ns, eval (namespaceOf eHttp) threeExceptions = Some ns ∧
        eval (r <- derive1 eHttp (DAddNote "seen") ;; namespaceOf r) threeExceptions
          = Some ns.
Proof.
  split; [reflexivity|].
  destruct (define_stamps_space_name httpSpace bareTimeout threeExceptions)
    as (_ & _ & (r & σ' & o & Hdef & _ & Ho & Hns & _) & _ & Hkeep & _).
  split.
  - by exists r, σ', o.
  - apply (Hkeep eHttp (DAddNote "seen")). reflexivity.
Defined.

End ExceptionModel.

(** ** The argument validator adapter *)

Section ParseArgsFacts.
Context {Schema Input Data : Type}.
Variable safeParse : Schema → Input → Args.SafeParseReturn Data.
Implicit Types (σ : store) (schema : Schema) (input : Input).

(** C3.  [parseArgs(S, i)] always returns; it is a Success, carrying the
    typed value of the validator, exactly when [i] matches [S]; otherwise it
    is a Failure whose Exception is new, is named ["ValidatedArgsError"], has
    the diagnostic text of the validator as its message and has no
    namespace. *)
Theorem parseArgs_outcome schema input σ :
  ∃ r σ',
    Args.parseArgs safeParse schema input σ = Some (r, σ') ∧
    isSuccess r = Args.matches safeParse schema input ∧
    (∀ data, r = Success data ↔ safeParse schema input = Args.ParseOk data) ∧
    (∀ e, r = Failure e →
       ∃ msg o,
         safeParse schema input = Args.ParseErr msg ∧
         (e ∉ dom σ) ∧
         σ' !! e = Some (ExceptionObject o) ∧
         name o = "ValidatedArgsError" ∧
         message o = Some msg ∧
         namespace o = None).
Proof.
  unfold Args.parseArgs, Args.matches.
  destruct (safeParse schema input) as [data|msg].
  - exists (Success data), σ. split_and!; try done.
    split; congruence.
  - unfold bind.
    destruct (exception_spec
                (mkConfig "ValidatedArgsError" None None (Some msg) None None None) σ)
      as (e & σ' & s & n & -> & _ & He & Ho & _).
    exists (Failure e), σ'. split_and!; try done.
    + intros e' [= <-]. eexists msg, _. split_and!; try done.
      by apply fresh_not_in_dom.
Qed.

End ParseArgsFacts.

Lemma parseArgs_outcome_witness :
  ∃ e σ' o,
    Args.parseArgs userIdSchema () None ∅ = Some (Failure e, σ') ∧
    σ' !! e = Some (ExceptionObject o) ∧
    name o = "ValidatedArgsError" ∧
    message o = Some "userId is required" ∧
    namespace o = None.
Proof.
  destruct (parseArgs_outcome userIdSchema () None ∅)
    as (r & σ' & Hrun & _ & _ & Hfail).
  vm_compute in Hrun. injection Hrun as <- <-.
  destruct (Hfail _ eq_refl) as (msg & o & Hmsg & _ & Ho & Hname & Hm & Hns).
  vm_compute in Hmsg. injection Hmsg as <-.
  eexists _, _, o. split_and!; try done.
Defined.

(** ** The check combinators *)

Section CombinatorFacts.
Context {Ctx RawArgs : Type}.
Variable wrapGroup : ExceptionGroup → M ref.
Implicit Types (σ : store) (ctx : Ctx) (args : RawArgs).
Implicit Types (c : @Checks.Check Ctx RawArgs) (checks pre post : list (@Checks.Check Ctx RawArgs)).

Lemma runEach_cons c checks ctx args σ rs σ' :
  Checks.runEach (c :: checks) ctx args σ = Some (rs, σ') →
  ∃ r σ1 rs',
    c ctx args σ = Some (r, σ1) ∧
    Checks.runEach checks ctx args σ1 = Some (rs', σ') ∧
    rs = r :: rs'.
Proof.
  simpl. unfold bind, ret.
  destruct (c ctx args σ) as [[r σ1]|]; [|discriminate].
  destruct (Checks.runEach checks ctx args σ1) as [[rs' σ2]|] eqn:Hrest;
    [|discriminate].
  intros [= <- <-]. by exists r, σ1, rs'.
Qed.

Lemma runEach_nil ctx args σ rs σ' :
  Checks.runEach (@nil (@Checks.Check Ctx RawArgs)) ctx args σ = Some (rs, σ') →
  rs = [] ∧ σ' = σ.
Proof. simpl. unfold ret. by intros [= <- <-]. Qed.

Lemma checkAll_all_succeed checks ctx args σ oks σ' :
  Checks.runEach checks ctx args σ = Some (oks, σ') →
  forallb isSuccess oks = true →
  Checks.checkAll checks ctx args σ = Some (success (), σ').
Proof.
  revert σ oks. induction checks as [|c checks IH]; intros σ oks Hrun Hok.
  - by apply runEach_nil in Hrun as [-> ->].
  - apply runEach_cons in Hrun as (r & σ1 & rs' & Hc & Hrest & ->).
    simpl in Hok. apply andb_prop in Hok as [Hr Hrs].
    simpl. unfold bind. rewrite Hc.
    destruct r as [v|e]; [|discriminate]. by eapply IH.
Qed.

Lemma checkAll_first_failure pre c post ctx args σ oks σ1 e σ2 :
  Checks.runEach pre ctx args σ = Some (oks, σ1) →
  forallb isSuccess oks = true →
  c ctx args σ1 = Some (Failure e, σ2) →
  Checks.checkAll (pre ++ c :: post) ctx args σ = Some (Failure e, σ2).
Proof.
  revert σ oks. induction pre as [|p pre IH]; intros σ oks Hrun Hok Hc.
  - apply runEach_nil in Hrun as [-> ->].
    simpl. unfold bind. by rewrite Hc.
  - apply runEach_cons in Hrun as (r & σ' & rs' & Hp & Hrest & ->).
    simpl in Hok. apply andb_prop in Hok as [Hr Hrs].
    simpl. unfold bind. rewrite Hp.
    destruct r as [v|e']; [|discriminate]. by eapply IH.
Qed.

(** C4.  [checkAll] evaluates its checks in the given order, each one in
    the world the previous one left.  When the checks before [c] succeed and
    [c] fails, the result is the failure of [c] unchanged, in the world [c]
    left: whatever follows [c] is not evaluated.  When every check succeeds
    the result is [success(unit)]. *)
Theorem checkAll_fail_fast ctx args σ :
  (∀ pre c post oks σ1 e σ2,
     Checks.runEach pre ctx args σ = Some (oks, σ1) →
     forallb isSuccess oks = true →
     c ctx args σ1 = Some (Failure e, σ2) →
     Checks.checkAll (pre ++ c :: post) ctx args σ = Some (Failure e, σ2)) ∧
  (∀ checks oks σ',
     Checks.runEach checks ctx args σ = Some (oks, σ') →
     forallb isSuccess oks = true →
     Checks.checkAll checks ctx args σ = Some (success (), σ')).
Proof.
  split.
  - intros. by eapply checkAll_first_failure.
  - intros. by eapply checkAll_all_succeed.
Qed.

Lemma anyOf_all_fail checks failures ctx args σ es σ' :
  Checks.runEach checks ctx args σ = Some (map Failure es, σ') →
  Checks.anyOf wrapGroup checks failures ctx args σ =
    (e <- wrapGroup (group "checkAny"
                       (mkNonEmpty (first failures) (others failures ++ es))) ;;
     ret (failure e)) σ'.
Proof.
  revert failures σ es.
  induction checks as [|c checks IH]; intros failures σ es Hrun.
  - apply runEach_nil in Hrun as [Hes ->].
    destruct es; [|discriminate]. simpl. rewrite app_nil_r.
    by destruct failures.
  - apply runEach_cons in Hrun as (r & σ1 & rs' & Hc & Hrest & Hrs).
    destruct es as [|e es]; [discriminate|]. simpl in Hrs.
    injection Hrs as <- <-.
    simpl. unfold bind at 1. rewrite Hc.
    rewrite (IH _ _ _ Hrest). simpl. by rewrite <- app_assoc.
Qed.

Lemma anyOf_first_success pre c post failures ctx args σ errs σ1 v σ2 :
  Checks.runEach pre ctx args σ = Some (map Failure errs, σ1) →
  c ctx args σ1 = Some (Success v, σ2) →
  Checks.anyOf wrapGroup (pre ++ c :: post) failures ctx args σ = Some (Success v, σ2).
Proof.
  revert failures σ errs.
  induction pre as [|p pre IH]; intros failures σ errs Hrun Hc.
  - apply runEach_nil in Hrun as [_ ->]. simpl. unfold bind. by rewrite Hc.
  - apply runEach_cons in Hrun as (r & σ' & rs' & Hp & Hrest & Hrs).
    destruct errs as [|e errs]; [discriminate|]. simpl in Hrs.
    injection Hrs as <- <-.
    simpl. unfold bind at 1. rewrite Hp. by eapply IH.
Qed.

(** C5.  [checkAny] evaluates its checks in order, each one in the world
    the previous one left.  When the checks before [c] fail and [c]
    succeeds, the result is the success of [c], in the world [c] left:
    whatever follows [c] is not evaluated.  When every check fails, the
    result is the failure that wraps [group("checkAny", allFailures)], the
    group holding the error of each check in evaluation order.  Given no
    check at all, the result is a failure whose Exception is new and is named
    ["EmptyCheckSetError"]. *)
Theorem checkAny_succeed_fast ctx args σ :
  (∀ pre c post errs σ1 v σ2,
     Checks.runEach pre ctx args σ = Some (map Failure errs, σ1) →
     c ctx args σ1 = Some (Success v, σ2) →
     Checks.checkAny wrapGroup (pre ++ c :: post) ctx args σ = Some (Success v, σ2)) ∧
  (∀ checks e es σ' g r σ'',
     Checks.runEach checks ctx args σ = Some (map Failure (e :: es), σ') →
     g = group "checkAny" (mkNonEmpty e es) →
     wrapGroup g σ' = Some (r, σ'') →
     group_name g = "checkAny" ∧
     toList (exceptions g) = e :: es ∧
     Checks.checkAny wrapGroup checks ctx args σ = Some (Failure r, σ'')) ∧
  (∃ r σ' o,
     Checks.checkAny wrapGroup [] ctx args σ = Some (Failure r, σ') ∧
     (r ∉ dom σ) ∧
     σ' !! r = Some (ExceptionObject o) ∧
     name o = "EmptyCheckSetError").
Proof.
  split_and!.
  - intros pre c post errs σ1 v σ2 Hrun Hc.
    destruct pre as [|p pre].
    + apply runEach_nil in Hrun as [_ ->]. simpl. unfold bind. by rewrite Hc.
    + apply runEach_cons in Hrun as (r & σ' & rs' & Hp & Hrest & Hrs).
      destruct errs as [|e errs]; [discriminate|]. simpl in Hrs.
      injection Hrs as <- <-.
      simpl. unfold bind at 1. rewrite Hp. by eapply anyOf_first_success.
  - intros checks e es σ' g r σ'' Hrun -> Hwrap.
    split_and!; [reflexivity | reflexivity |].
    destruct checks as [|c checks].
    + by apply runEach_nil in Hrun as [? _].
    + apply runEach_cons in Hrun as (r0 & σ1 & rs' & Hc & Hrest & Hrs).
      simpl in Hrs. injection Hrs as <- <-.
      simpl. unfold bind at 1. rewrite Hc.
      rewrite (anyOf_all_fail _ _ _ _ _ _ _ Hrest). simpl.
      unfold bind. by rewrite Hwrap.
  - simpl. unfold bind.
    destruct (exception_spec
                (mkConfig "EmptyCheckSetError" None None None None None None) σ)
      as (r & σ' & s & n & -> & _ & Hr & Ho & _).
    eexists r, σ', _. split_and!; try done. by apply fresh_not_in_dom.
Qed.

End CombinatorFacts.

Lemma checkAll_fail_fast_witness :
  (∃ oks σ1 e σ2,
     Checks.runEach [allow; isAdmin] "admin" () threeExceptions = Some (oks, σ1) ∧
     forallb isSuccess oks = true ∧
     deny notFound "admin" () σ1 = Some (Failure e, σ2) ∧
     Checks.checkAll ([allow; isAdmin] ++ deny notFound :: [crash; allow])
       "admin" () threeExceptions = Some (Failure e, σ2)) ∧
  (∃ oks σ',
     Checks.runEach [allow; isAdmin; allow] "admin" () threeExceptions = Some (oks, σ') ∧
     forallb isSuccess oks = true ∧
     Checks.checkAll [allow; isAdmin; allow] "admin" () threeExceptions
       = Some (success (), σ')).
Proof.
  destruct (checkAll_fail_fast "admin" () threeExceptions) as [Hfail Hall].
  split.
  - eexists _, _, _, _. split_and!; [reflexivity | reflexivity | reflexivity |].
    eapply (Hfail [allow; isAdmin] (deny notFound) [crash; allow]
              [Success (); Success ()]); reflexivity.
  - eexists _, _. split_and!; [reflexivity | reflexivity |].
    eapply (Hall [allow; isAdmin; allow] [Success (); Success (); Success ()]);
      reflexivity.
Defined.

Lemma checkAny_succeed_fast_witness :
  (∃ errs σ1 v σ2,
     Checks.runEach [deny notFound; isAdmin] "guest" () threeExceptions
       = Some (map Failure errs, σ1) ∧
     allow "guest" () σ1 = Some (Success v, σ2) ∧
     Checks.checkAny asException ([deny notFound; isAdmin] ++ allow :: [crash])
       "guest" () threeExceptions = Some (Success v, σ2)) ∧
  (∃ e es σ' r σ'',
     Checks.runEach [deny notFound; isAdmin] "guest" () threeExceptions
       = Some (map Failure (e :: es), σ') ∧
     asException (group "checkAny" (mkNonEmpty e es)) σ' = Some (r, σ'') ∧
     Checks.checkAny asException [deny notFound; isAdmin] "guest" () threeExceptions
       = Some (Failure r, σ'')).
Proof.
  destruct (checkAny_succeed_fast asException "guest" () threeExceptions)
    as (Hfirst & Hnone & _).
  split.
  - exists [12%positive; 15%positive]. eexists _, _, _.
    split_and!; [reflexivity | reflexivity |].
    eapply (Hfirst [deny notFound; isAdmin] allow [crash]
              [12%positive; 15%positive]); reflexivity.
  - exists 12%positive, [15%positive]. eexists _, _, _.
    split_and!; [reflexivity | reflexivity |].
    eapply (Hnone [deny notFound; isAdmin] 12%positive [15%positive]);
      reflexivity.
Defined.

(** * Further properties of the Exception model *)

Section DerivationFields.
Implicit Types (σ : store) (l r e c x : ref) (o : ExceptionObj).

Lemma fieldsOf_mono σ σ' e :
  σ ⊆ σ' → wf_exception σ e = true →
  eval (fieldsOf e) σ' = eval (fieldsOf e) σ.
Proof.
  intros Hsub (o & st & ns & He & Hst & Hns & _)%wf_exception_inv.
  rewrite (fieldsOf_spec σ e o st ns) by done.
  apply fieldsOf_spec; by eapply lookup_extends.
Qed.

Lemma from_step σ e c :
  wf_exception σ e = true →
  ∃ F r σ',
    eval (fieldsOf e) σ = Some F ∧
    from e c σ = Some (r, σ') ∧ σ ⊆ σ' ∧ σ !! r = None ∧
    wf_exception σ' r = true ∧
    eval (fieldsOf r) σ' =
      Some (mkFields (f_name F) (f_namespace F) (f_code F) (f_message F)
                     (Some c) (f_stack F ++ [c]) (f_notes F)).
Proof.
  intros Hwf.
  destruct (wf_exception_inv σ e Hwf) as (o & st & ns & He & Hst & Hns & _ & Hn).
  destruct (from_spec σ e c o st He Hst)
    as (r & σ' & o' & Hfrom & Hsub & Hr & Ho' & Hname & Hnsp & Hcode & Hmsg
        & Hcause & _ & _ & Hst' & _ & Hinh).
  destruct (from_wf σ e c Hwf) as (r0 & σ0 & _ & _ & Hfrom0 & _ & _ & _ & _ & _ & _ & Hwf').
  assert (r0 = r ∧ σ0 = σ') as [-> ->] by (split; congruence).
  eexists _, r, σ'. split_and!; try done.
  - by eapply fieldsOf_spec.
  - simpl. rewrite <- Hname, <- Hnsp, <- Hcode, <- Hmsg, <- Hcause.
    eapply fieldsOf_spec; [done | done |].
    unfold inherited in Hinh. destruct (cfg_notes (config o)) as [n0|].
    + rewrite Hinh, Hn. by eapply lookup_extends.
    + destruct Hinh as [_ Hnew]. by rewrite Hn.
Qed.

Lemma addNote_step σ e note :
  wf_exception σ e = true →
  ∃ F r σ',
    eval (fieldsOf e) σ = Some F ∧
    addNote e note σ = Some (r, σ') ∧ σ ⊆ σ' ∧ σ !! r = None ∧
    wf_exception σ' r = true ∧
    eval (fieldsOf r) σ' =
      Some (mkFields (f_name F) (f_namespace F) (f_code F) (f_message F)
                     (f_cause F) (f_stack F) (f_notes F ++ [note])).
Proof.
  intros Hwf.
  destruct (wf_exception_inv σ e Hwf) as (o & st & ns & He & Hst & Hns & Hs & _).
  destruct (addNote_spec σ e note o ns He Hns)
    as (r & σ' & o' & Hadd & Hsub & Hr & Ho' & Hname & Hnsp & Hcode & Hmsg
        & Hcause & _ & _ & Hns' & _ & Hinh).
  destruct (addNote_wf σ e note Hwf)
    as (r0 & σ0 & _ & _ & Hadd0 & _ & _ & _ & _ & _ & _ & Hwf').
  assert (r0 = r ∧ σ0 = σ') as [-> ->] by (split; congruence).
  eexists _, r, σ'. split_and!; try done.
  - by eapply fieldsOf_spec.
  - simpl. rewrite <- Hname, <- Hnsp, <- Hcode, <- Hmsg, <- Hcause.
    eapply fieldsOf_spec; [done | | done].
    unfold inherited in Hinh. destruct (cfg_stack (config o)) as [s0|].
    + rewrite Hinh, Hs. by eapply lookup_extends.
    + destruct Hinh as [_ Hnew]. by rewrite Hs.
Qed.

End DerivationFields.

(** ** Construction and derivation *)

Section Construction.
Implicit Types (σ : store) (l r e c x : ref) (o : ExceptionObj).

(** X1.  [exception(config)] allocates a new, well-formed Exception and
    changes nothing that exists.  It reads back with the name, namespace,
    code, message and cause of [config].  A [stack] (resp. [notes]) array
    given in [config] is used as it is, by reference and without a copy; a
    missing one defaults to a new empty array. *)
Theorem exception_reads_back (cfg : ExceptionConfig) σ :
  wf_config σ cfg = true →
  ∃ r σ' o st ns,
    exception cfg σ = Some (r, σ') ∧
    (r ∉ dom σ) ∧
    (∀ l, l ∈ dom σ → σ' !! l = σ !! l) ∧
    σ' !! r = Some (ExceptionObject o) ∧
    wf_exception σ' r = true ∧
    eval (fieldsOf r) σ' =
      Some (mkFields (cfg_name cfg) (cfg_namespace cfg) (cfg_code cfg)
                     (cfg_message cfg) (cfg_cause cfg) st ns) ∧
    match cfg_stack cfg with
    | Some s => stack o = s ∧ σ !! s = Some (ExceptionArray st)
    | None => (stack o ∉ dom σ) ∧ st = []
    end ∧
    match cfg_notes cfg with
    | Some n => notes o = n ∧ σ !! n = Some (StringArray ns)
    | None => (notes o ∉ dom σ) ∧ ns = []
    end.
Proof.
  unfold wf_config. intros [Hs Hn]%andb_prop.
  destruct (exception_spec cfg σ)
    as (r & σ' & s & n & Hex & Hsub & Hr & Ho & Hs' & Hn').
  assert (∃ st, σ' !! s = Some (ExceptionArray st) ∧
                match cfg_stack cfg with
                | Some s0 => s = s0 ∧ σ !! s0 = Some (ExceptionArray st)
                | None => (s ∉ dom σ) ∧ st = []
                end) as (st & Hst & Hst').
  { destruct (cfg_stack cfg) as [s0|].
    - subst s. destruct (σ !! s0) as [[st| |]|] eqn:E; try discriminate.
      exists st. split; [by eapply lookup_extends | done].
    - destruct Hs' as [Hfresh Hnew]. exists []. split; [done|].
      split; [by apply fresh_not_in_dom | done]. }
  assert (∃ ns, σ' !! n = Some (StringArray ns) ∧
                match cfg_notes cfg with
                | Some n0 => n = n0 ∧ σ !! n0 = Some (StringArray ns)
                | None => (n ∉ dom σ) ∧ ns = []
                end) as (ns & Hns & Hns').
  { destruct (cfg_notes cfg) as [n0|].
    - subst n. destruct (σ !! n0) as [[|ns|]|] eqn:E; try discriminate.
      exists ns. split; [by eapply lookup_extends | done].
    - destruct Hn' as [Hfresh Hnew]. exists []. split; [done|].
      split; [by apply fresh_not_in_dom | done]. }
  exists r, σ', (mkObj cfg s n), st, ns. split_and!; try done.
  - by apply fresh_not_in_dom.
  - intros l Hl. by apply extends_frame.
  - eapply (wf_exception_intro σ' r (mkObj cfg s n) st ns); try done.
    + simpl. destruct (cfg_stack cfg); [by destruct Hst' | by destruct Hst'].
    + simpl. destruct (cfg_notes cfg); [by destruct Hns' | by destruct Hns'].
  - by apply (fieldsOf_spec σ' r (mkObj cfg s n) st ns).
Qed.

Lemma exception_reads_back_witness :
  wf_config threeExceptions
    (mkConfig "Wrapped" None None None (Some eHttp) (Some 1%positive) None) = true ∧
  ∃ r σ' o st ns,
    exception (mkConfig "Wrapped" None None None (Some eHttp) (Some 1%positive) None)
      threeExceptions = Some (r, σ') ∧
    σ' !! r = Some (ExceptionObject o) ∧
    stack o = 1%positive ∧
    eval (fieldsOf r) σ' =
      Some (mkFields "Wrapped" None None None (Some eHttp) st ns) ∧
    ns = [].
Proof.
  split; [reflexivity|].
  destruct (exception_reads_back
              (mkConfig "Wrapped" None None None (Some eHttp) (Some 1%positive) None)
              threeExceptions eq_refl)
    as (r & σ' & o & st & ns & Hex & _ & _ & Ho & _ & HF & [Hs _] & [_ Hn]).
  exists r, σ', o, st, ns.
  split_and!; [exact Hex | exact Ho | exact Hs | exact HF | exact Hn].
Defined.

(** X2.  [e.from(c)] keeps the name, namespace, code, message and notes of
    [e]; only the cause (replaced by [c], whatever it was) and the stack
    change.  The result is new and well formed, so it can be derived from
    again. *)
Theorem from_keeps_other_fields σ e c :
  wf_exception σ e = true →
  ∃ F r σ',
    eval (fieldsOf e) σ = Some F ∧
    from e c σ = Some (r, σ') ∧
    (r ∉ dom σ) ∧
    wf_exception σ' r = true ∧
    eval (fieldsOf r) σ' =
      Some (mkFields (f_name F) (f_namespace F) (f_code F) (f_message F)
                     (Some c) (f_stack F ++ [c]) (f_notes F)).
Proof.
  intros Hwf.
  destruct (from_step σ e c Hwf) as (F & r & σ' & HF & Hfrom & _ & Hr & Hwf' & HF').
  exists F, r, σ'. split_and!; try done. by apply fresh_not_in_dom.
Qed.

Lemma from_keeps_other_fields_witness :
  wf_exception threeExceptions eTimeout = true ∧
  ∃ F r σ',
    eval (fieldsOf eTimeout) threeExceptions = Some F ∧
    from eTimeout eHttp threeExceptions = Some (r, σ') ∧
    (r ∉ dom threeExceptions) ∧
    wf_exception σ' r = true ∧
    eval (fieldsOf r) σ' =
      Some (mkFields (f_name F) (f_namespace F) (f_code F) (f_message F)
                     (Some eHttp) (f_stack F ++ [eHttp]) (f_notes F)).
Proof.
  split; [reflexivity|].
  apply (from_keeps_other_fields threeExceptions eTimeout eHttp). reflexivity.
Defined.

(** X3.  Any chain of [from] and [addNote] calls starting at [e] succeeds,
    changes nothing that exists, and ends in a well-formed Exception with the
    name, namespace, code and message of [e]; its stack is the stack of [e]
    followed by the causes of the chain in call order, its notes are the
    notes of [e] followed by the notes of the chain in call order, and its
    cause is the one of the last [from] (the cause of [e] if the chain has
    no [from]). *)
Theorem derive_accumulates σ e ds :
  wf_exception σ e = true →
  ∃ F r σ',
    eval (fieldsOf e) σ = Some F ∧
    derive e ds σ = Some (r, σ') ∧
    (∀ l, l ∈ dom σ → σ' !! l = σ !! l) ∧
    wf_exception σ' r = true ∧
    eval (fieldsOf r) σ' =
      Some (mkFields (f_name F) (f_namespace F) (f_code F) (f_message F)
                     (lastCause (f_cause F) ds)
                     (f_stack F ++ causesOf ds)
                     (f_notes F ++ notesAdded ds)).
Proof.
  revert σ e. induction ds as [|d ds IH]; intros σ e Hwf.
  - destruct (wf_exception_inv σ e Hwf) as (o & st & ns & He & Hst & Hns & _).
    exists (mkFields (name o) (namespace o) (code o) (message o) (cause o) st ns), e, σ.
    simpl. rewrite !app_nil_r.
    split_and!; try done; by eapply fieldsOf_spec.
  - assert (∃ F r1 σ1,
        eval (fieldsOf e) σ = Some F ∧
        derive1 e d σ = Some (r1, σ1) ∧ σ ⊆ σ1 ∧
        wf_exception σ1 r1 = true ∧
        eval (fieldsOf r1) σ1 =
          Some (mkFields (f_name F) (f_namespace F) (f_code F) (f_message F)
                  (lastCause (f_cause F) [d])
                  (f_stack F ++ causesOf [d]) (f_notes F ++ notesAdded [d])))
      as (F & r1 & σ1 & HF & Hstep & Hsub & Hwf1 & HF1).
    { destruct d as [c|n]; simpl.
      - destruct (from_step σ e c Hwf) as (F & r & σ' & ? & ? & ? & ? & ? & HF').
        exists F, r, σ'. split_and!; try done. by rewrite app_nil_r.
      - destruct (addNote_step σ e n Hwf) as (F & r & σ' & ? & ? & ? & ? & ? & HF').
        exists F, r, σ'. split_and!; try done. by rewrite app_nil_r. }
    destruct (IH σ1 r1 Hwf1) as (F1 & r & σ' & HF1' & Hrest & Hframe & Hwf' & HF').
    rewrite HF1 in HF1'. injection HF1' as <-.
    exists F, r, σ'. split_and!; try done.
    + simpl. unfold bind. by rewrite Hstep.
    + intros l Hl. rewrite <- (extends_frame σ σ1 l Hsub Hl).
      apply Hframe. by apply (subseteq_dom σ σ1).
    + rewrite HF'. simpl. destruct d; simpl; by rewrite <- ?app_assoc.
Qed.

Lemma derive_accumulates_witness :
  wf_exception threeExceptions eTimeout = true ∧
  ∃ F r σ',
    eval (fieldsOf eTimeout) threeExceptions = Some F ∧
    derive eTimeout [DFrom eHttp; DAddNote "seen"; DFrom ePlain; DAddNote "twice"]
      threeExceptions = Some (r, σ') ∧
    eval (fieldsOf r) σ' =
      Some (mkFields (f_name F) (f_namespace F) (f_code F) (f_message F)
                     (Some ePlain) (f_stack F ++ [eHttp; ePlain])
                     (f_notes F ++ ["seen"; "twice"])).
Proof.
  split; [reflexivity|].
  destruct (derive_accumulates threeExceptions eTimeout
              [DFrom eHttp; DAddNote "seen"; DFrom ePlain; DAddNote "twice"] eq_refl)
    as (F & r & σ' & HF & Hder & _ & _ & HF').
  exists F, r, σ'. split_and!; [exact HF | exact Hder | exact HF'].
Defined.

End Construction.

(** ** How derivations compose *)

Section Composition.
Implicit Types (σ : store) (l r e c x : ref) (o : ExceptionObj).

(** X4.  [from] and [addNote] commute: [e.from(c).addNote(n)] and
    [e.addNote(n).from(c)] read the same in every property, namely as [e]
    with cause [c], with [c] appended to the stack and [n] to the notes. *)
Theorem from_addNote_commute σ e c note :
  wf_exception σ e = true →
  ∃ F,
    eval (fieldsOf e) σ = Some F ∧
    eval (a <- from e c ;; b <- addNote a note ;; fieldsOf b) σ =
      Some (mkFields (f_name F) (f_namespace F) (f_code F) (f_message F)
                     (Some c) (f_stack F ++ [c]) (f_notes F ++ [note])) ∧
    eval (a <- addNote e note ;; b <- from a c ;; fieldsOf b) σ =
      Some (mkFields (f_name F) (f_namespace F) (f_code F) (f_message F)
                     (Some c) (f_stack F ++ [c]) (f_notes F ++ [note])).
Proof.
  intros Hwf.
  destruct (from_step σ e c Hwf)
    as (F & a & σa & HF & Hfrom & _ & _ & Hwfa & HFa).
  destruct (addNote_step σa a note Hwfa)
    as (Fa & b & σb & HFa' & Hadd & _ & _ & _ & HFb).
  rewrite HFa in HFa'. injection HFa' as <-. simpl in HFb.
  destruct (addNote_step σ e note Hwf)
    as (F' & a' & σa' & HF' & Hadd' & _ & _ & Hwfa' & HFa2).
  rewrite HF in HF'. injection HF' as <-.
  destruct (from_step σa' a' c Hwfa')
    as (Fa2 & b' & σb' & HFa2' & Hfrom' & _ & _ & _ & HFb').
  rewrite HFa2 in HFa2'. injection HFa2' as <-. simpl in HFb'.
  exists F. split_and!; [done | |].
  - unfold eval in *. unfold bind. by rewrite Hfrom, Hadd.
  - unfold eval in *. unfold bind. by rewrite Hadd', Hfrom'.
Qed.

Lemma from_addNote_commute_witness :
  wf_exception threeExceptions eTimeout = true ∧
  ∃ F,
    eval (fieldsOf eTimeout) threeExceptions = Some F ∧
    eval (a <- from eTimeout eHttp ;; b <- addNote a "seen" ;; fieldsOf b)
      threeExceptions =
      Some (mkFields (f_name F) (f_namespace F) (f_code F) (f_message F)
                     (Some eHttp) (f_stack F ++ [eHttp]) (f_notes F ++ ["seen"])) ∧
    eval (a <- addNote eTimeout "seen" ;; b <- from a eHttp ;; fieldsOf b)
      threeExceptions =
      Some (mkFields (f_name F) (f_namespace F) (f_code F) (f_message F)
                     (Some eHttp) (f_stack F ++ [eHttp]) (f_notes F ++ ["seen"])).
Proof.
  split; [reflexivity|].
  apply (from_addNote_commute threeExceptions eTimeout eHttp "seen"). reflexivity.
Defined.

(** X5.  One Exception can be the root of several chains: after
    [e.from(c1)], a second [e.from(c2)] on the same [e] yields a different
    Exception whose stack is the stack of [e] followed by [c2] alone, and
    the first result still reads as it did. *)
Theorem from_branches_independent σ e c1 c2 :
  wf_exception σ e = true →
  ∃ F r1 σ1 r2 σ2,
    eval (fieldsOf e) σ = Some F ∧
    from e c1 σ = Some (r1, σ1) ∧
    from e c2 σ1 = Some (r2, σ2) ∧
    r1 ≠ r2 ∧
    eval (fieldsOf r1) σ2 =
      Some (mkFields (f_name F) (f_namespace F) (f_code F) (f_message F)
                     (Some c1) (f_stack F ++ [c1]) (f_notes F)) ∧
    eval (fieldsOf r2) σ2 =
      Some (mkFields (f_name F) (f_namespace F) (f_code F) (f_message F)
                     (Some c2) (f_stack F ++ [c2]) (f_notes F)).
Proof.
  intros Hwf.
  destruct (from_step σ e c1 Hwf)
    as (F & r1 & σ1 & HF & Hfrom1 & Hsub1 & _ & Hwf1 & HF1).
  assert (Hwf' : wf_exception σ1 e = true) by by eapply wf_exception_mono.
  destruct (from_step σ1 e c2 Hwf')
    as (F' & r2 & σ2 & HF' & Hfrom2 & Hsub2 & Hr2 & _ & HF2).
  rewrite (fieldsOf_mono σ σ1 e Hsub1 Hwf), HF in HF'. injection HF' as <-.
  exists F, r1, σ1, r2, σ2. split_and!; try done.
  - intros ->. destruct (wf_exception_inv σ1 r2 Hwf1) as (? & ? & ? & Hin & _).
    congruence.
  - by rewrite (fieldsOf_mono σ1 σ2 r1 Hsub2 Hwf1).
Qed.

Lemma from_branches_independent_witness :
  wf_exception threeExceptions eTimeout = true ∧
  ∃ F r1 σ1 r2 σ2,
    eval (fieldsOf eTimeout) threeExceptions = Some F ∧
    from eTimeout eHttp threeExceptions = Some (r1, σ1) ∧
    from eTimeout ePlain σ1 = Some (r2, σ2) ∧
    r1 ≠ r2 ∧
    eval (fieldsOf r1) σ2 =
      Some (mkFields (f_name F) (f_namespace F) (f_code F) (f_message F)
                     (Some eHttp) (f_stack F ++ [eHttp]) (f_notes F)) ∧
    eval (fieldsOf r2) σ2 =
      Some (mkFields (f_name F) (f_namespace F) (f_code F) (f_message F)
                     (Some ePlain) (f_stack F ++ [ePlain]) (f_notes F)).
Proof.
  split; [reflexivity|].
  apply (from_branches_independent threeExceptions eTimeout eHttp ePlain).
  reflexivity.
Defined.



End Composition.

(** ** The comparison [is] as a relation *)

Section IsRelation.
Implicit Types (σ : store) (l r e c x : ref) (o : ExceptionObj).

Lemma is_true_iff σ e x oe ox :
  σ !! e = Some (ExceptionObject oe) →
  σ !! x = Some (ExceptionObject ox) →
  eval (is_ e x) σ = Some true ↔
    name ox = name oe ∧ (truthy (namespace oe) = true → namespace ox = namespace oe).
Proof.
  intros He Hx. unfold eval. rewrite (is_spec σ e x oe ox He Hx). simpl.
  split.
  - intros [= H]. apply andb_prop in H as [H1 H2].
    apply bool_decide_eq_true in H1. split; [done|].
    intros Ht. rewrite Ht in H2. by apply bool_decide_eq_true in H2.
  - intros [H1 H2]. f_equal. apply andb_true_intro. split.
    + by apply bool_decide_eq_true.
    + destruct (truthy (namespace oe)); [|done].
      apply bool_decide_eq_true. by apply H2.
Qed.

Lemma is_some_bool σ e x :
  wf_exception σ e = true → wf_exception σ x = true →
  ∃ b, eval (is_ e x) σ = Some b.
Proof.
  intros (oe & ? & ? & He & _)%wf_exception_inv (ox & ? & ? & Hx & _)%wf_exception_inv.
  unfold eval. rewrite (is_spec σ e x oe ox He Hx). by eexists.
Qed.

(** X7.  [is] is reflexive: every Exception is of its own kind. *)
Theorem is_reflexive σ e :
  wf_exception σ e = true → eval (is_ e e) σ = Some true.
Proof.
  intros (o & ? & ? & He & _)%wf_exception_inv.
  by apply (is_true_iff σ e e o o).
Qed.

Lemma is_reflexive_witness :
  wf_exception threeExceptions eHttp = true ∧
  eval (is_ eHttp eHttp) threeExceptions = Some true.
Proof.
  split; [reflexivity|]. apply (is_reflexive threeExceptions eHttp). reflexivity.
Defined.

(** X8.  [is] is transitive: when [a.is(b)] and [b.is(c)] are true, so is
    [a.is(c)]. *)
Theorem is_transitive σ a b c :
  wf_exception σ a = true →
  wf_exception σ b = true →
  wf_exception σ c = true →
  eval (is_ a b) σ = Some true →
  eval (is_ b c) σ = Some true →
  eval (is_ a c) σ = Some true.
Proof.
  intros (oa & ? & ? & Ha & _)%wf_exception_inv
         (ob & ? & ? & Hb & _)%wf_exception_inv
         (oc & ? & ? & Hc & _)%wf_exception_inv.
  rewrite (is_true_iff σ a b oa ob), (is_true_iff σ b c ob oc),
    (is_true_iff σ a c oa oc) by done.
  intros [Hn1 Hs1] [Hn2 Hs2]. split; [congruence|].
  intros Ht. specialize (Hs1 Ht).
  rewrite <- Hs1 in Ht. specialize (Hs2 Ht). congruence.
Qed.

Lemma is_transitive_witness :
  wf_exception fourExceptions ePlain = true ∧
  wf_exception fourExceptions eHttp = true ∧
  wf_exception fourExceptions eHttp' = true ∧
  eval (is_ ePlain eHttp) fourExceptions = Some true ∧
  eval (is_ eHttp eHttp') fourExceptions = Some true ∧
  eval (is_ ePlain eHttp') fourExceptions = Some true.
Proof.
  do 5 (split; [reflexivity|]).
  apply (is_transitive fourExceptions ePlain eHttp eHttp'); reflexivity.
Defined.

(** X9.  [is] is symmetric between two Exceptions that both have a
    non-empty namespace, or both have none; it is not symmetric otherwise:
    when the names match, a receiver without a namespace matches a
    namespaced comparand, and the namespaced one does not match back. *)
Theorem is_symmetry σ e x :
  wf_exception σ e = true →
  wf_exception σ x = true →
  ∃ oe ox,
    eval (readException e) σ = Some oe ∧
    eval (readException x) σ = Some ox ∧
    (truthy (namespace oe) = truthy (namespace ox) →
     eval (is_ e x) σ = eval (is_ x e) σ) ∧
    (name ox = name oe →
     truthy (namespace oe) = false → truthy (namespace ox) = true →
     eval (is_ e x) σ = Some true ∧ eval (is_ x e) σ = Some false).
Proof.
  intros (oe & ? & ? & He & _)%wf_exception_inv (ox & ? & ? & Hx & _)%wf_exception_inv.
  exists oe, ox. split_and!.
  - by apply eval_readException.
  - by apply eval_readException.
  - intros Ht. unfold eval.
    rewrite (is_spec σ e x oe ox He Hx), (is_spec σ x e ox oe Hx He). simpl.
    rewrite <- Ht.
    rewrite (bool_decide_ext (name ox = name oe) (name oe = name ox)) by done.
    destruct (truthy (namespace oe)); [|done].
    by rewrite (bool_decide_ext (namespace ox = namespace oe)
                  (namespace oe = namespace ox)).
  - intros Hname Hte Htx. split.
    + apply (is_true_iff σ e x oe ox He Hx). split; [done|]. by rewrite Hte.
    + unfold eval. rewrite (is_spec σ x e ox oe Hx He). simpl.
      rewrite Htx. rewrite (bool_decide_eq_false_2 (namespace oe = namespace ox)).
      * by rewrite andb_false_r.
      * intros Heq. rewrite Heq, Htx in Hte. discriminate.
Qed.

Lemma is_symmetry_witness :
  wf_exception threeExceptions ePlain = true ∧
  wf_exception threeExceptions eHttp = true ∧
  eval (is_ ePlain eHttp) threeExceptions = Some true ∧
  eval (is_ eHttp ePlain) threeExceptions = Some false.
Proof.
  split; [reflexivity|]. split; [reflexivity|].
  destruct (is_symmetry threeExceptions ePlain eHttp eq_refl eq_refl)
    as (oe & ox & Hoe & Hox & _ & Hasym).
  vm_compute in Hoe. injection Hoe as <-.
  vm_compute in Hox. injection Hox as <-.
  apply Hasym; reflexivity.
Defined.

End IsRelation.

(** ** Exception spaces and [is] *)

Section Spaces.
Implicit Types (σ : store) (l r e c x : ref) (o : ExceptionObj).

Lemma truthy_Some (ns : string) : truthy (Some ns) = true ↔ ns ≠ "".
Proof.
  simpl. rewrite negb_true_iff. split.
  - intros H ->. by rewrite String.eqb_refl in H.
  - intros H. by apply String.eqb_neq.
Qed.

(** Two Exceptions defined one after the other, through two spaces. *)
Lemma define_twice
    (s1 s2 : ExceptionSpaceConfig) (cfg1 cfg2 : ConfigWithoutNamespace) σ :
  ∃ r1 σ1 r2 σ2 o1 o2,
    define (exceptionSpace s1) cfg1 σ = Some (r1, σ1) ∧
    define (exceptionSpace s2) cfg2 σ1 = Some (r2, σ2) ∧
    r1 ≠ r2 ∧
    σ2 !! r1 = Some (ExceptionObject o1) ∧
    σ2 !! r2 = Some (ExceptionObject o2) ∧
    name o1 = bare_name cfg1 ∧ namespace o1 = Some (esc_name s1) ∧
    name o2 = bare_name cfg2 ∧ namespace o2 = Some (esc_name s2).
Proof.
  simpl.
  set (c1 := mkConfig (bare_name cfg1) (Some (esc_name s1)) (bare_code cfg1)
               (bare_message cfg1) (bare_cause cfg1) (bare_stack cfg1)
               (bare_notes cfg1)).
  set (c2 := mkConfig (bare_name cfg2) (Some (esc_name s2)) (bare_code cfg2)
               (bare_message cfg2) (bare_cause cfg2) (bare_stack cfg2)
               (bare_notes cfg2)).
  destruct (exception_spec c1 σ) as (r1 & σ1 & st1 & n1 & Hd1 & _ & _ & Ho1 & _).
  destruct (exception_spec c2 σ1) as (r2 & σ2 & st2 & n2 & Hd2 & Hsub & Hr2 & Ho2 & _).
  exists r1, σ1, r2, σ2, (mkObj c1 st1 n1), (mkObj c2 st2 n2).
  split_and!; [exact Hd1 | exact Hd2 | | | exact Ho2 | | | | ]; try reflexivity.
  - intros ->. congruence.
  - by eapply lookup_extends.
Qed.

(** X10.  Within one space, [is] is name equality: two Exceptions defined
    through spaces of the same name match, in both directions, exactly when
    their names are equal, whatever else their configurations hold. *)
Theorem define_same_space_is_name_equality
    (s1 s2 : ExceptionSpaceConfig) (cfg1 cfg2 : ConfigWithoutNamespace) σ :
  esc_name s2 = esc_name s1 →
  ∃ r1 σ1 r2 σ2,
    define (exceptionSpace s1) cfg1 σ = Some (r1, σ1) ∧
    define (exceptionSpace s2) cfg2 σ1 = Some (r2, σ2) ∧
    r1 ≠ r2 ∧
    (eval (is_ r1 r2) σ2 = Some true ↔ bare_name cfg2 = bare_name cfg1) ∧
    (eval (is_ r2 r1) σ2 = Some true ↔ bare_name cfg2 = bare_name cfg1).
Proof.
  intros Hsame.
  destruct (define_twice s1 s2 cfg1 cfg2 σ)
    as (r1 & σ1 & r2 & σ2 & o1 & o2 & Hd1 & Hd2 & Hne & Ho1 & Ho2
        & Hn1 & Hs1 & Hn2 & Hs2).
  exists r1, σ1, r2, σ2. split_and!; try done.
  - rewrite (is_true_iff σ2 r1 r2 o1 o2 Ho1 Ho2), Hn1, Hn2, Hs1, Hs2, Hsame.
    tauto.
  - rewrite (is_true_iff σ2 r2 r1 o2 o1 Ho2 Ho1), Hn1, Hn2, Hs1, Hs2, Hsame.
    intuition congruence.
Qed.

Lemma define_same_space_is_name_equality_witness :
  esc_name httpSpace = esc_name httpSpace ∧
  ∃ r1 σ1 r2 σ2,
    define (exceptionSpace httpSpace) bareTimeout ∅ = Some (r1, σ1) ∧
    define (exceptionSpace httpSpace) bareTimeout σ1 = Some (r2, σ2) ∧
    r1 ≠ r2 ∧
    (eval (is_ r1 r2) σ2 = Some true ↔ bare_name bareTimeout = bare_name bareTimeout) ∧
    (eval (is_ r2 r1) σ2 = Some true ↔ bare_name bareTimeout = bare_name bareTimeout).
Proof.
  split; [reflexivity|].
  apply (define_same_space_is_name_equality httpSpace httpSpace bareTimeout bareTimeout ∅).
  reflexivity.
Defined.

(** X11.  Across spaces.  An Exception defined through a space with a
    non-empty name never matches one defined through a space of another
    name, even under the same Exception name.  A space whose name is the
    empty string gives no such separation: its namespace is falsy, and its
    Exceptions match same-named Exceptions of every space. *)
Theorem define_across_spaces
    (s1 s2 : ExceptionSpaceConfig) (cfg1 cfg2 : ConfigWithoutNamespace) σ :
  ∃ r1 σ1 r2 σ2,
    define (exceptionSpace s1) cfg1 σ = Some (r1, σ1) ∧
    define (exceptionSpace s2) cfg2 σ1 = Some (r2, σ2) ∧
    (esc_name s1 ≠ "" → esc_name s2 ≠ esc_name s1 →
     eval (is_ r1 r2) σ2 = Some false) ∧
    (esc_name s1 = "" →
     (eval (is_ r1 r2) σ2 = Some true ↔ bare_name cfg2 = bare_name cfg1)).
Proof.
  destruct (define_twice s1 s2 cfg1 cfg2 σ)
    as (r1 & σ1 & r2 & σ2 & o1 & o2 & Hd1 & Hd2 & Hne & Ho1 & Ho2
        & Hn1 & Hs1 & Hn2 & Hs2).
  exists r1, σ1, r2, σ2. split_and!; try done.
  - intros Hnonempty Hother. unfold eval.
    rewrite (is_spec σ2 r1 r2 o1 o2 Ho1 Ho2), Hn1, Hn2, Hs1, Hs2. simpl.
    apply String.eqb_neq in Hnonempty. rewrite Hnonempty. simpl.
    rewrite (bool_decide_eq_false_2 (Some (esc_name s2) = Some (esc_name s1))).
    + by rewrite andb_false_r.
    + congruence.
  - intros Hempty.
    rewrite (is_true_iff σ2 r1 r2 o1 o2 Ho1 Ho2), Hn1, Hn2, Hs1, Hempty.
    simpl. intuition discriminate.
Qed.

Lemma define_across_spaces_witness :
  (∃ r1 σ1 r2 σ2,
     define (exceptionSpace httpSpace) bareTimeout ∅ = Some (r1, σ1) ∧
     define (exceptionSpace (mkSpaceConfig "Db" error)) bareTimeout σ1 = Some (r2, σ2) ∧
     eval (is_ r1 r2) σ2 = Some false) ∧
  (∃ r1 σ1 r2 σ2,
     define (exceptionSpace (mkSpaceConfig "" info)) bareTimeout ∅ = Some (r1, σ1) ∧
     define (exceptionSpace httpSpace) bareTimeout σ1 = Some (r2, σ2) ∧
     eval (is_ r1 r2) σ2 = Some true).
Proof.
  split.
  - destruct (define_across_spaces httpSpace (mkSpaceConfig "Db" error)
                bareTimeout bareTimeout ∅)
      as (r1 & σ1 & r2 & σ2 & Hd1 & Hd2 & Hsep & _).
    exists r1, σ1, r2, σ2. split_and!; [exact Hd1 | exact Hd2 |].
    apply Hsep; discriminate.
  - destruct (define_across_spaces (mkSpaceConfig "" info) httpSpace
                bareTimeout bareTimeout ∅)
      as (r1 & σ1 & r2 & σ2 & Hd1 & Hd2 & _ & Hany).
    exists r1, σ1, r2, σ2. split_and!; [exact Hd1 | exact Hd2 |].
    apply Hany; reflexivity.
Defined.

End Spaces.

(** ** More on [parseArgs] *)

Section ParseArgsMore.
Context {Schema Input Data : Type}.
Variable safeParse : Schema → Input → Args.SafeParseReturn Data.
Implicit Types (σ : store) (schema : Schema) (input : Input) (x : ref).

Lemma parseArgs_failure schema input msg σ :
  safeParse schema input = Args.ParseErr msg →
  ∃ e σ' s n,
    Args.parseArgs safeParse schema input σ = Some (Failure e, σ') ∧
    σ ⊆ σ' ∧ σ !! e = None ∧
    σ' !! e = Some (ExceptionObject
                      (mkObj (mkConfig "ValidatedArgsError" None None (Some msg)
                                None None None) s n)) ∧
    σ' !! s = Some (ExceptionArray []) ∧
    σ' !! n = Some (StringArray []).
Proof.
  intros Herr. unfold Args.parseArgs. rewrite Herr. unfold bind.
  destruct (exception_spec
              (mkConfig "ValidatedArgsError" None None (Some msg) None None None) σ)
    as (e & σ' & s & n & -> & Hsub & He & Ho & [_ Hs] & [_ Hn]).
  by exists e, σ', s, n.
Qed.

(** X12.  [parseArgs] changes nothing that exists, and allocates only when
    validation fails: on success the store is exactly what it was. *)
Theorem parseArgs_frame schema input σ :
  ∃ r σ',
    Args.parseArgs safeParse schema input σ = Some (r, σ') ∧
    (∀ l, l ∈ dom σ → σ' !! l = σ !! l) ∧
    (isSuccess r = true → σ' = σ).
Proof.
  destruct (safeParse schema input) as [data|msg] eqn:Hparse.
  - exists (Success data), σ. unfold Args.parseArgs. rewrite Hparse.
    by split_and!.
  - destruct (parseArgs_failure schema input msg σ Hparse)
      as (e & σ' & s & n & Hrun & Hsub & _).
    exists (Failure e), σ'. split_and!; [done | | done].
    intros l Hl. by apply extends_frame.
Qed.

(** X13.  The Exception of a validation failure has, besides its name and
    message, no namespace, no code, no cause, an empty stack and no notes;
    it is well formed, so it can be derived from. *)
Theorem parseArgs_failure_fields schema input msg σ :
  safeParse schema input = Args.ParseErr msg →
  ∃ e σ',
    Args.parseArgs safeParse schema input σ = Some (Failure e, σ') ∧
    wf_exception σ' e = true ∧
    eval (fieldsOf e) σ' =
      Some (mkFields "ValidatedArgsError" None None (Some msg) None [] []).
Proof.
  intros Herr.
  destruct (parseArgs_failure schema input msg σ Herr)
    as (e & σ' & s & n & Hrun & _ & _ & Ho & Hs & Hn).
  exists e, σ'. split_and!; [done | |].
  - by eapply (wf_exception_intro σ' e _ [] []).
  - by apply (fieldsOf_spec σ' e _ [] [] Ho Hs Hn).
Qed.

(** X14.  Telling a validation failure by kind.  For the Exception [e] of
    a failed [parseArgs] and any Exception [x]: [e.is(x)] is true exactly
    when [x] is named ["ValidatedArgsError"], whatever the namespace of
    [x]; [x.is(e)] needs in addition that [x] has no (or an empty)
    namespace. *)
Theorem parseArgs_failure_kind schema input msg σ x :
  safeParse schema input = Args.ParseErr msg →
  wf_exception σ x = true →
  ∃ e σ' ox,
    Args.parseArgs safeParse schema input σ = Some (Failure e, σ') ∧
    eval (readException x) σ = Some ox ∧
    (eval (is_ e x) σ' = Some true ↔ name ox = "ValidatedArgsError") ∧
    (eval (is_ x e) σ' = Some true ↔
       name ox = "ValidatedArgsError" ∧ truthy (namespace ox) = false).
Proof.
  intros Herr (ox & ? & ? & Hx & _)%wf_exception_inv.
  destruct (parseArgs_failure schema input msg σ Herr)
    as (e & σ' & s & n & Hrun & Hsub & _ & Ho & _).
  assert (Hx' : σ' !! x = Some (ExceptionObject ox)) by by eapply lookup_extends.
  exists e, σ', ox. split_and!; [done | by apply eval_readException | |].
  - rewrite (is_true_iff σ' e x _ ox Ho Hx'). simpl.
    unfold name at 2. simpl. intuition discriminate.
  - rewrite (is_true_iff σ' x e ox _ Hx' Ho).
    unfold name at 1, namespace at 2. simpl.
    destruct (truthy (namespace ox)) eqn:Ht.
    + split.
      * intros [_ H]. specialize (H eq_refl).
        rewrite <- H in Ht. discriminate.
      * intros [_ ?]. discriminate.
    + intuition (try discriminate; congruence).
Qed.

End ParseArgsMore.

Lemma parseArgs_frame_witness :
  ∃ σ',
    Args.parseArgs userIdSchema () (Some "u1") threeExceptions
      = Some (Success "u1", σ') ∧
    σ' = threeExceptions.
Proof.
  destruct (parseArgs_frame userIdSchema () (Some "u1") threeExceptions)
    as (r & σ' & Hrun & _ & Hsame).
  assert (Hr : r = Success "u1").
  { unfold Args.parseArgs in Hrun. simpl in Hrun.
    unfold ret, success in Hrun. congruence. }
  subst r. exists σ'. split; [exact Hrun|]. by apply Hsame.
Defined.

Lemma parseArgs_failure_fields_witness :
  userIdSchema () (Some "") = Args.ParseErr "userId must not be empty" ∧
  ∃ e σ',
    Args.parseArgs userIdSchema () (Some "") threeExceptions = Some (Failure e, σ') ∧
    wf_exception σ' e = true ∧
    eval (fieldsOf e) σ' =
      Some (mkFields "ValidatedArgsError" None None
              (Some "userId must not be empty") None [] []).
Proof.
  split; [reflexivity|].
  apply (parseArgs_failure_fields userIdSchema () (Some "")
           "userId must not be empty" threeExceptions).
  reflexivity.
Defined.

Lemma parseArgs_failure_kind_witness :
  userIdSchema () None = Args.ParseErr "userId is required" ∧
  wf_exception threeExceptions eHttp = true ∧
  ∃ e σ' ox,
    Args.parseArgs userIdSchema () None threeExceptions = Some (Failure e, σ') ∧
    eval (readException eHttp) threeExceptions = Some ox ∧
    (eval (is_ e eHttp) σ' = Some true ↔ name ox = "ValidatedArgsError") ∧
    (eval (is_ eHttp e) σ' = Some true ↔
       name ox = "ValidatedArgsError" ∧ truthy (namespace ox) = false).
Proof.
  split; [reflexivity|]. split; [reflexivity|].
  apply (parseArgs_failure_kind userIdSchema () None "userId is required"
           threeExceptions eHttp); reflexivity.
Defined.

(** ** Arrays shared along a chain *)

Section ChainSharing.
Implicit Types (σ : store) (l r e c x : ref) (o : ExceptionObj).

(** X15.  Along a chain the array a step does not touch is shared, not
    copied: [e.addNote(n).from(c)] has the very [notes] array of
    [e.addNote(n)] and a [stack] array of its own, and
    [e.from(c).addNote(n)] has the very [stack] array of [e.from(c)] and a
    [notes] array of its own. *)
Theorem chained_derivations_share σ e c note :
  wf_exception σ e = true →
  (∃ a σa b σb oa ob,
     addNote e note σ = Some (a, σa) ∧ from a c σa = Some (b, σb) ∧
     σb !! a = Some (ExceptionObject oa) ∧ σb !! b = Some (ExceptionObject ob) ∧
     a ≠ b ∧ notes ob = notes oa ∧ stack ob ≠ stack oa) ∧
  (∃ a σa b σb oa ob,
     from e c σ = Some (a, σa) ∧ addNote a note σa = Some (b, σb) ∧
     σb !! a = Some (ExceptionObject oa) ∧ σb !! b = Some (ExceptionObject ob) ∧
     a ≠ b ∧ stack ob = stack oa ∧ notes ob ≠ notes oa).
Proof.
  intros Hwf.
  destruct (wf_exception_inv σ e Hwf) as (o & st & ns & He & Hst & Hns & _).
  split.
  - destruct (addNote_spec σ e note o ns He Hns)
      as (a & σa & oa & Hadd & _ & _ & Hoa & _ & _ & _ & _ & _ & Hcn & _ & _ & _ & _).
    destruct (addNote_wf σ e note Hwf)
      as (a0 & σ0 & _ & _ & Hadd0 & _ & _ & _ & _ & _ & _ & Hwfa).
    assert (a0 = a ∧ σ0 = σa) as [-> ->] by (split; congruence).
    destruct (wf_exception_inv σa a Hwfa) as (oa' & sta & nsa & Hoa' & Hsta & _).
    assert (oa' = oa) as -> by congruence.
    destruct (from_spec σa a c oa sta Hoa Hsta)
      as (b & σb & ob & Hfrom & Hsub & Hb & Hob & _ & _ & _ & _ & _ & _ & Hnew & _ & _ & Hinh).
    exists a, σa, b, σb, oa, ob. split_and!; try done.
    + by eapply lookup_extends.
    + intros ->. congruence.
    + unfold inherited in Hinh. by rewrite Hcn in Hinh.
    + intros Heq. rewrite Heq in Hnew. congruence.
  - destruct (from_spec σ e c o st He Hst)
      as (a & σa & oa & Hfrom & _ & _ & Hoa & _ & _ & _ & _ & _ & Hcs & _ & _ & _ & _).
    destruct (from_wf σ e c Hwf)
      as (a0 & σ0 & _ & _ & Hfrom0 & _ & _ & _ & _ & _ & _ & Hwfa).
    assert (a0 = a ∧ σ0 = σa) as [-> ->] by (split; congruence).
    destruct (wf_exception_inv σa a Hwfa) as (oa' & sta & nsa & Hoa' & _ & Hnsa & _).
    assert (oa' = oa) as -> by congruence.
    destruct (addNote_spec σa a note oa nsa Hoa Hnsa)
      as (b & σb & ob & Hadd & Hsub & Hb & Hob & _ & _ & _ & _ & _ & _ & Hnew & _ & _ & Hinh).
    exists a, σa, b, σb, oa, ob. split_and!; try done.
    + by eapply lookup_extends.
    + intros ->. congruence.
    + unfold inherited in Hinh. by rewrite Hcs in Hinh.
    + intros Heq. rewrite Heq in Hnew. congruence.
Qed.

Lemma chained_derivations_share_witness :
  wf_exception threeExceptions eTimeout = true ∧
  (∃ a σa b σb oa ob,
     addNote eTimeout "seen" threeExceptions = Some (a, σa) ∧
     from a eHttp σa = Some (b, σb) ∧
     σb !! a = Some (ExceptionObject oa) ∧ σb !! b = Some (ExceptionObject ob) ∧
     a ≠ b ∧ notes ob = notes oa ∧ stack ob ≠ stack oa) ∧
  (∃ a σa b σb oa ob,
     from eTimeout eHttp threeExceptions = Some (a, σa) ∧
     addNote a "seen" σa = Some (b, σb) ∧
     σb !! a = Some (ExceptionObject oa) ∧ σb !! b = Some (ExceptionObject ob) ∧
     a ≠ b ∧ stack ob = stack oa ∧ notes ob ≠ notes oa).
Proof.
  split; [reflexivity|].
  apply (chained_derivations_share threeExceptions eTimeout eHttp "seen").
  reflexivity.
Defined.

End ChainSharing.
